(** * amqpx: channel supervisor and multi-queue consumer supervisor

    A shallow embedding of [amqpd.go] (the [Amqpx] channel supervisor) and of
    the consumer file (the [AmqpxConsumer] supervisor), with the properties
    of the design document stated over it.

    Layout: the definitions come first (transport capability, [Amqpx],
    [AmqpxConsumer], the goroutines as small-step machines, the interleaved
    system), then the lemmas and theorems. *)

From Stdlib Require Import ZArith.
From Stdlib.Strings Require Import Byte Ascii.
From stdpp Require Import gmap strings list fin_maps pretty.

Local Open Scope Z_scope.

(* ===================================================================== *)
(** * Part I. Definitions *)
(* ===================================================================== *)

(** ** Go runtime values *)

(** [time.Duration] counts nanoseconds. *)
Definition Nanosecond : Z := 1.
Definition Second : Z := 1000000000 * Nanosecond.

(** An [error] is modelled by its message ([err.Error()]); [nil] is [None]. *)
Abbreviation error := (option string).

(** [fmt.Errorf(prefix + "%s", err)]: the prefix followed by the message. *)
Definition Errorf (prefix : string) (err : string) : error :=
  Some (prefix +:+ err).

(** [strconv.FormatUint(n, 10)]: the decimal digits of an unsigned number. *)
Definition FormatUint (n : Z) : string := pretty (Z.to_N n).

(** [atomic.AddUint64(&v, delta)]: the new value, wrapping at 2^64. *)
Definition AddUint64 (v delta : Z) : Z := (v + delta) mod 2 ^ 64.

#[global] Instance byte_eq_decision : EqDecision byte := byte_eq_dec.

(** ** Observable events of the consumer supervisor

    Every call that leaves the supervisor (to the channel supervisor, to the
    broker through a delivery, to the logger, to the clock) and every
    scheduling action (goroutine launch, wait-group operation, context
    cancellation) is recorded in a trace, oldest event first. *)
Inductive Event : Type :=
  | EvAddFunc (csr : string)                (* ac.entries[csr] = ... *)
  | EvWgAdd (delta : Z)                     (* ac.jobWaiter.Add(delta) *)
  | EvGo (i : nat) (csr : string)           (* go func(c, e){...}(k, v): loop task i *)
  | EvExit (i : nat)                        (* deferred ac.jobWaiter.Done() of task i *)
  | EvStop (j : nat)                        (* Stop called; it returns handle j *)
  | EvCancel (j : nat) (csr : string)       (* ac.cli.Cancel(csr) by shutdown task j *)
  | EvWaitReturn (j : nat)                  (* ac.jobWaiter.Wait() returned in task j *)
  | EvClose (j : nat)                       (* ac.cli.Close() by shutdown task j *)
  | EvCtxDone (j : nat)                     (* cancel(): handle j resolves *)
  | EvConsume (queue consumer : string)     (* ac.cli.Consume(queue, consumer) *)
  | EvLog (line : string)                   (* log.Printf *)
  | EvPanicLog (r : string) (buf : list byte) (* the panic diagnostic *)
  | EvSleep (d : Z)                         (* time.Sleep(d) *)
  | EvAck (tag : Z) (multiple : bool)       (* dely.Ack(multiple) *)
  | EvReject (tag : Z) (requeue : bool).    (* dely.Reject(requeue) *)

#[global] Instance Event_eq_decision : EqDecision Event.
Proof. solve_decision. Defined.

(** The two terminal dispositions of a delivery. *)
Definition is_disposition (e : Event) : bool :=
  match e with
  | EvAck _ _ | EvReject _ _ => true
  | _ => false
  end.

Definition dispositions (tr : list Event) : list Event :=
  filter (λ e, is_disposition e = true) tr.

(** The delivery a disposition is for. *)
Definition disposition_tag (e : Event) : option Z :=
  match e with
  | EvAck tag _ | EvReject tag _ => Some tag
  | _ => None
  end.

(** In the trace [tr], an event [a] has occurred by the time [b] occurs. *)
Definition before (tr : list Event) (a b : Event) : Prop :=
  ∃ t1 t2, tr = t1 ++ b :: t2 ∧ a ∈ t1.

(** The handle of the shutdown goroutine an event belongs to, if any. *)
Definition sd_of (e : Event) : option nat :=
  match e with
  | EvStop j | EvCancel j _ | EvWaitReturn j | EvClose j | EvCtxDone j => Some j
  | _ => None
  end.

(** The events a loop goroutine produces inside [run]. *)
Definition is_loop_event (e : Event) : bool :=
  match e with
  | EvConsume _ _ | EvLog _ | EvPanicLog _ _ | EvSleep _
  | EvAck _ _ | EvReject _ _ => true
  | _ => false
  end.

(** What [Start] does for the bindings it visits in the order [order], when
    [n] loop goroutines exist already: for each binding, [jobWaiter.Add(1)]
    and then the launch of its goroutine. *)
Fixpoint launch_events (n : nat) (order : list string) : list Event :=
  match order with
  | [] => []
  | k :: order' => EvWgAdd 1 :: EvGo n k :: launch_events (S n) order'
  end.

(** [amqp.Delivery]: the fields the consumer uses. *)
Record Delivery : Type := mkDelivery {
  DeliveryTag : Z;
  Body : list byte
}.

(** What a call [f(body)] of a handler does: it returns an [error] (possibly
    [nil]), or it panics with a value, rendered here as [%v] prints it, while
    the goroutine stack has the given rendering. *)
Inductive HandlerOutcome : Type :=
  | Returns (err : error)
  | Panics (r : string) (stack : list byte).

(** What [ac.cli.Consume(queue, consumer)] gave: an error, or a stream of
    deliveries, given here up to the point where the stream ended. *)
Inductive ConsumeResult : Type :=
  | ConsumeErr (err : string)
  | ConsumeStream (deliveries : list Delivery).

(** [const size = 64 << 10] of [runWithRecovery], the length of the buffer
    handed to [runtime.Stack], which fills at most that many bytes. (Named
    [stack_size] here: [size] is the cardinality of a finite map.) *)
Definition stack_size : Z := Z.shiftl 64 10.

Definition newline : string := String "010"%char EmptyString.

(** Program points of the goroutine [func(c, e) { defer Done(); ac.run(c, e) }]
    that [Start] launches. *)
Inductive LoopPc : Type :=
  | AtFor            (* evaluating the condition of [for ac.running] *)
  | AtConsume        (* [consume] is calling [ac.cli.Consume] *)
  | AtRange          (* [consume] is inside [for dely := range deliveries] *)
  | AtRunningCheck   (* [consume] returned nil: [if !ac.running] *)
  | AtDone           (* [run] returned: the deferred [Done] is pending *)
  | Exited.

#[global] Instance LoopPc_eq_decision : EqDecision LoopPc.
Proof. solve_decision. Defined.

(** What the loop goroutine receives from outside at a program point. *)
Inductive LoopInput : Type :=
  | Tick                          (* nothing: the step is internal *)
  | GotErr (err : string)         (* [ac.cli.Consume] failed *)
  | GotStream                     (* [ac.cli.Consume] gave a stream *)
  | GotDelivery (dely : Delivery) (* the stream produced a delivery *)
  | StreamEnd.                    (* the stream was closed *)

(** Program points of the goroutine that [Stop] launches. *)
Inductive SdPc : Type :=
  | SdRange                       (* about to start [for csr := range ac.entries] *)
  | SdCancel (rest : list string) (* inside the range: identities still to cancel *)
  | SdWait                        (* at [ac.jobWaiter.Wait()] *)
  | SdClose                       (* at [ac.cli.Close()] *)
  | SdCtxCancel                   (* at [cancel()] *)
  | SdFinished.

Section ConsumerDefinitions.
(** The state the user-supplied handlers close over. *)
Context {U : Type}.

(** [func([]byte) error] *)
Definition HandlerFunc : Type := list byte → U → U * HandlerOutcome.

Record entry : Type := mkEntry {
  Queue : string;
  Handler : HandlerFunc
}.

(** [AmqpxConsumer]. [cli] is reached through the events [EvConsume],
    [EvCancel] and [EvClose]; [runningMu] makes [AddFunc], [Start] and
    [Stop] atomic with respect to each other; [jobWaiter] is the counter of
    the wait group. *)
Record AmqpxConsumer : Type := mkAmqpxConsumer {
  entries : gmap string entry;
  running : bool;
  jobWaiter : Z
}.

(** [NewAmqpxConsumer], once [New] has given the channel supervisor. *)
Definition NewAmqpxConsumer : AmqpxConsumer :=
  mkAmqpxConsumer ∅ false 0.

(** [runWithRecovery]: the deferred closure recovers a panic and logs it.
    The result parameter of the function is unnamed and the closure assigns
    nothing, so after a recovered panic the function returns the zero value
    of [error], which is [nil]. *)
Definition runWithRecovery (f : HandlerFunc) (body : list byte) (u : U)
    : U * error * list Event :=
  match f body u with
  | (u', Returns err) => (u', err, [])
  | (u', Panics r stack) =>
      let buf := take (Z.to_nat stack_size) stack in
      (u', None, [EvPanicLog r buf])
  end.

(** The body of [for dely := range deliveries] in [consume]. *)
Definition deliver (handler : HandlerFunc) (dely : Delivery) (u : U)
    : U * list Event :=
  let '(u', err, log) := runWithRecovery handler (Body dely) u in
  match err with
  | Some _ => (u', log ++ [EvReject (DeliveryTag dely) true])
  | None => (u', log ++ [EvAck (DeliveryTag dely) false])
  end.

Fixpoint range_deliveries (handler : HandlerFunc)
    (deliveries : list Delivery) (u : U) : U * list Event :=
  match deliveries with
  | [] => (u, [])
  | dely :: rest =>
      let '(u1, t1) := deliver handler dely u in
      let '(u2, t2) := range_deliveries handler rest u1 in
      (u2, t1 ++ t2)
  end.

(** [consume], for a stream that ends. *)
Definition consume (queue consumer : string) (handler : HandlerFunc)
    (res : ConsumeResult) (u : U) : U * error * list Event :=
  match res with
  | ConsumeErr err =>
      (u, Errorf "amqpd consume err: " err, [EvConsume queue consumer])
  | ConsumeStream deliveries =>
      let '(u', tr) := range_deliveries handler deliveries u in
      (u', None, EvConsume queue consumer :: tr)
  end.

(** [AddFunc], on the package variable [consumerSeq] and the receiver. *)
Definition AddFunc (queue consumer : string) (fn : HandlerFunc)
    (consumerSeq : Z) (ac : AmqpxConsumer) : Z * AmqpxConsumer :=
  let n := AddUint64 consumerSeq 1 in
  let suffix := "-" +:+ FormatUint n in
  (n, mkAmqpxConsumer
        (<[consumer +:+ suffix := mkEntry queue fn]> (entries ac))
        (running ac) (jobWaiter ac)).

(** One step of [run] (and of [consume] inlined in it) for the binding
    [csr], [e]. [running] is the value of [ac.running] read by the step. *)
Definition run_step (running : bool) (csr : string) (e : entry)
    (pc : LoopPc) (inp : LoopInput) (u : U)
    : option (LoopPc * U * list Event) :=
  match pc, inp with
  | AtFor, Tick =>
      Some (if running then AtConsume else AtDone, u, [])
  | AtConsume, GotErr err =>
      Some (AtFor, u,
            [EvConsume (Queue e) csr;
             EvLog ("amqpd-consumer: run error: " +:+
                    "amqpd consume err: " +:+ err +:+ newline);
             EvSleep (Second * 15)])
  | AtConsume, GotStream =>
      Some (AtRange, u, [EvConsume (Queue e) csr])
  | AtRange, GotDelivery dely =>
      let '(u', tr) := deliver (Handler e) dely u in
      Some (AtRange, u', tr)
  | AtRange, StreamEnd =>
      Some (AtRunningCheck, u, [])
  | AtRunningCheck, Tick =>
      if running then Some (AtFor, u, [EvSleep (Second * 15)])
      else Some (AtDone, u, [])
  | _, _ => None
  end.

(** A run of the loop: each step comes with the value of the running flag
    it reads and with its input. A step that is not enabled is skipped. *)
Fixpoint run_steps (csr : string) (e : entry)
    (script : list (bool * LoopInput)) (pc : LoopPc) (u : U)
    : LoopPc * U * list Event :=
  match script with
  | [] => (pc, u, [])
  | (r, inp) :: script' =>
      match run_step r csr e pc inp u with
      | Some (pc1, u1, t1) =>
          let '(pc2, u2, t2) := run_steps csr e script' pc1 u1 in
          (pc2, u2, t1 ++ t2)
      | None => run_steps csr e script' pc u
      end
  end.

(** ** The supervisor with its goroutines *)

Record Task : Type := mkTask {
  t_csr : string;
  t_entry : entry;
  t_pc : LoopPc
}.

Record Sys : Type := mkSys {
  consumerSeq : Z;               (* the package variable *)
  ac : AmqpxConsumer;
  tasks : list Task;             (* the goroutines launched by [Start] *)
  shutdowns : list SdPc;         (* the goroutines launched by [Stop] *)
  user : U;
  trace : list Event
}.

Definition initial (u : U) : Sys :=
  mkSys 0 NewAmqpxConsumer [] [] u [].

(** The identities in the registry, in the order of [map_to_list]; a
    [range] over the map visits them in any order. *)
Definition keys (s : Sys) : list string := (map_to_list (entries (ac s))).*1.

Definition sys_AddFunc (queue consumer : string) (fn : HandlerFunc)
    (s : Sys) : Sys :=
  let '(n, ac') := AddFunc queue consumer fn (consumerSeq s) (ac s) in
  mkSys n ac' (tasks s) (shutdowns s) (user s)
        (trace s ++ [EvAddFunc (consumer +:+ "-" +:+ FormatUint n)]).

(** The body of [for k, v := range ac.entries] in [Start]. *)
Definition launch (s : Sys) (k : string) : Sys :=
  match entries (ac s) !! k with
  | Some v =>
      mkSys (consumerSeq s)
            (mkAmqpxConsumer (entries (ac s)) (running (ac s))
                             (jobWaiter (ac s) + 1))
            (tasks s ++ [mkTask k v AtFor]) (shutdowns s) (user s)
            (trace s ++ [EvWgAdd 1; EvGo (length (tasks s)) k])
  | None => s
  end.

(** [Start]; [order] is the order in which the range visits the registry. *)
Definition Start (order : list string) (s : Sys) : Sys :=
  if running (ac s) then s
  else
    foldl launch
      (mkSys (consumerSeq s)
             (mkAmqpxConsumer (entries (ac s)) true (jobWaiter (ac s)))
             (tasks s) (shutdowns s) (user s) (trace s))
      order.

(** [Stop]: the state after the call and the handle it returns. *)
Definition Stop (s : Sys) : Sys * nat :=
  let j := length (shutdowns s) in
  (mkSys (consumerSeq s)
         (mkAmqpxConsumer (entries (ac s)) false (jobWaiter (ac s)))
         (tasks s) (shutdowns s ++ [SdRange]) (user s)
         (trace s ++ [EvStop j]),
   j).

(** One step of the goroutine of [Stop] whose handle is [j]. [ks] are the
    identities in the registry, [order] the order in which the range visits
    them, [wg] the counter of the wait group. *)
Definition shutdown_step (j : nat) (order ks : list string) (wg : Z)
    (pc : SdPc) : option (SdPc * list Event) :=
  match pc with
  | SdRange =>
      if bool_decide (order ≡ₚ ks) then Some (SdCancel order, []) else None
  | SdCancel (csr :: rest) => Some (SdCancel rest, [EvCancel j csr])
  | SdCancel [] => Some (SdWait, [])
  | SdWait =>
      if bool_decide (wg = 0) then Some (SdClose, [EvWaitReturn j]) else None
  | SdClose => Some (SdCtxCancel, [EvClose j])
  | SdCtxCancel => Some (SdFinished, [EvCtxDone j])
  | SdFinished => None
  end.

Inductive Action : Type :=
  | CallAddFunc (queue consumer : string) (fn : HandlerFunc)
  | CallStart (order : list string)
  | CallStop
  | StepLoop (i : nat) (inp : LoopInput)
  | StepShutdown (j : nat) (order : list string).

Definition set_task (i : nat) (t : Task) (pc : LoopPc) (wg : Z) (u : U)
    (evs : list Event) (s : Sys) : Sys :=
  mkSys (consumerSeq s)
        (mkAmqpxConsumer (entries (ac s)) (running (ac s)) wg)
        (<[i := mkTask (t_csr t) (t_entry t) pc]> (tasks s))
        (shutdowns s) u (trace s ++ evs).

Definition sys_step (a : Action) (s : Sys) : option Sys :=
  match a with
  | CallAddFunc queue consumer fn => Some (sys_AddFunc queue consumer fn s)
  | CallStart order =>
      if bool_decide (order ≡ₚ keys s) then Some (Start order s) else None
  | CallStop => Some (Stop s).1
  | StepLoop i inp =>
      match tasks s !! i with
      | Some t =>
          match t_pc t, inp with
          | AtDone, Tick =>
              (* the deferred [ac.jobWaiter.Done()] *)
              Some (set_task i t Exited (jobWaiter (ac s) - 1) (user s)
                             [EvExit i] s)
          | pc, _ =>
              match run_step (running (ac s)) (t_csr t) (t_entry t) pc inp
                             (user s) with
              | Some (pc', u', evs) =>
                  Some (set_task i t pc' (jobWaiter (ac s)) u' evs s)
              | None => None
              end
          end
      | None => None
      end
  | StepShutdown j order =>
      match shutdowns s !! j with
      | Some pc =>
          match shutdown_step j order (keys s) (jobWaiter (ac s)) pc with
          | Some (pc', evs) =>
              Some (mkSys (consumerSeq s) (ac s) (tasks s)
                          (<[j := pc']> (shutdowns s)) (user s)
                          (trace s ++ evs))
          | None => None
          end
      | None => None
      end
  end.

Definition is_CallStop (a : Action) : bool :=
  match a with CallStop => true | _ => false end.

Definition is_CallAddFunc (a : Action) : bool :=
  match a with CallAddFunc _ _ _ => true | _ => false end.

Fixpoint exec (acts : list Action) (s : Sys) : option Sys :=
  match acts with
  | [] => Some s
  | a :: acts' =>
      match sys_step a s with
      | Some s' => exec acts' s'
      | None => None
      end
  end.

End ConsumerDefinitions.

Arguments HandlerFunc : clear implicits.
Arguments entry : clear implicits.
Arguments AmqpxConsumer : clear implicits.
Arguments Task : clear implicits.
Arguments Sys : clear implicits.
Arguments Action : clear implicits.

(** ** The channel supervisor ([Amqpx])

    The transport under the supervisor: the package variable [Connection]
    and the function [Init] (both declared in a file of the package that is
    not among the sources at hand) and the calls of the AMQP client library
    on a connection and on a channel. They are taken as parameters; [World]
    is whatever state they act on. *)
Class Transport : Type := {
  World : Type;
  Channel : Type;                                (* a non-nil [*amqp.Channel] *)
  Connection_nil : World → bool;                 (* [Connection == nil] *)
  Connection_IsClosed : World → bool;            (* [Connection.IsClosed()] *)
  Init : World → error * World;                  (* [Init()] *)
  Connection_Channel : World → (Channel + string) * World;
                                                 (* [Connection.Channel()] *)
  Channel_IsClosed : Channel → World → bool;     (* [ch.IsClosed()] *)
  Channel_Close : Channel → World → error * World (* [ch.Close()] *)
}.

(** Program points of the goroutine [redial]. *)
Inductive RedialPc : Type :=
  | RdSelect     (* blocked in the outer [select] *)
  | RdRetry      (* at the head of the inner [for] *)
  | RdReturned.

(** What a [select] of [redial] finds ready. For the outer one: the stop
    signal, the close notification (with the cause as [%s] prints it), or
    nothing yet. For the inner one, which has a [default] case: the stop
    signal or not. *)
Inductive Selected : Type :=
  | SelStop
  | SelClosed (closeErr : string)
  | SelNone.

Section SupervisorDefinitions.
Context {T : Transport}.

(** The calls of the supervisor that leave it, oldest first. *)
Inductive Op : Type :=
  | OpInit
  | OpChannelClose (ch : Channel)
  | OpConnectionChannel
  | OpLog (line : string)
  | OpSleep (d : Z)
  | OpGoRedial.

(** [Amqpx]: the [channel] field, [nil] before the first acquisition. The
    [stop] channel is the [SelStop] input of [redial]. *)
Record Amqpx : Type := mkAmqpx {
  channel : option Channel
}.

(** Computations on the world that record their calls. *)
Definition IO (A : Type) : Type := World * list Op → A * (World * list Op).

#[local] Instance IO_ret : MRet IO := λ A a σ, (a, σ).
#[local] Instance IO_bind : MBind IO := λ A B f m σ,
  let '(a, σ') := m σ in f a σ'.

Definition connection_dead : IO bool := λ '(w, t),
  (Connection_nil w || Connection_IsClosed w, (w, t)).
Definition call_Init : IO error := λ '(w, t),
  let '(err, w') := Init w in (err, (w', t ++ [OpInit])).
Definition channel_IsClosed (ch : Channel) : IO bool := λ '(w, t),
  (Channel_IsClosed ch w, (w, t)).
Definition channel_Close (ch : Channel) : IO unit := λ '(w, t),
  let '(_, w') := Channel_Close ch w in (tt, (w', t ++ [OpChannelClose ch])).
Definition connection_Channel : IO (Channel + string) := λ '(w, t),
  let '(r, w') := Connection_Channel w in (r, (w', t ++ [OpConnectionChannel])).
Definition emit (op : Op) : IO unit := λ '(w, t), (tt, (w, t ++ [op])).

(** [initChannel]: the receiver after the call and the error returned. *)
Definition initChannel (ad : Amqpx) : IO (Amqpx * error) :=
  dead ← connection_dead;
  err ← (if dead : bool then call_Init else mret None);
  match err with
  | Some e => mret (ad, Errorf "amqpd connection error: " e)
  | None =>
      _ ← match channel ad with
          | Some ch =>
              closed ← channel_IsClosed ch;
              if closed : bool then mret tt else channel_Close ch
          | None => mret tt
          end;
      r ← connection_Channel;
      match r with
      | inr e => mret (ad, Errorf "open channel error: " e)
      | inl ch => mret (mkAmqpx (Some ch), None)
      end
  end.

(** [New] *)
Definition New : IO (option Amqpx * error) :=
  '(ad, err) ← initChannel (mkAmqpx None);
  match err with
  | Some e => mret (None, Some e)
  | None => _ ← emit OpGoRedial; mret (Some ad, None)
  end.

(** The [printf] closure of [redial]. *)
Definition printf (line : string) : IO unit :=
  emit (OpLog ("amqpd-redial: " +:+ line)).

(** One step of [redial]: from a [select] to the next one. *)
Definition redial_step (sel : Selected) (st : RedialPc * Amqpx)
    : IO (RedialPc * Amqpx) :=
  let '(pc, ad) := st in
  match pc, sel with
  | RdReturned, _ => mret (RdReturned, ad)
  | _, SelStop => mret (RdReturned, ad)
  | RdSelect, SelClosed closeErr =>
      _ ← printf ("channel closing: " +:+ closeErr);
      mret (RdRetry, ad)
  | RdSelect, SelNone => mret (RdSelect, ad)
  | RdRetry, _ =>
      _ ← printf "reconnecting...";
      '(ad', err) ← initChannel ad;
      match err with
      | Some e =>
          _ ← printf ("reconnect error: " +:+ e);
          _ ← emit (OpSleep (Second * 10));
          mret (RdRetry, ad')
      | None =>
          _ ← printf "channel re-established";
          mret (RdSelect, ad')
      end
  end.

Fixpoint redial_run (sels : list Selected) (st : RedialPc * Amqpx)
    : IO (RedialPc * Amqpx) :=
  match sels with
  | [] => mret st
  | sel :: sels' => st' ← redial_step sel st; redial_run sels' st'
  end.

End SupervisorDefinitions.

(** ** Registrations across the consumers of a process

    [consumerSeq] is a package variable: every [AddFunc], on whichever
    [AmqpxConsumer], advances it. A process is the counter, the consumers it
    has created, and (as a record of what happened) the identities issued so
    far, oldest first. *)
Section RegistrationDefinitions.
Context {U : Type}.

Record Registration : Type := mkRegistration {
  r_on : nat;                    (* the receiver: an index into the consumers *)
  r_queue : string;
  r_consumer : string;
  r_fn : HandlerFunc U
}.

Definition Process : Type := Z * list (AmqpxConsumer U) * list string.

(** The call [acs[r_on].AddFunc(r_queue, r_consumer, r_fn)]. *)
Definition register (p : Process) (r : Registration) : Process :=
  let '(seq, acs, issued) := p in
  match acs !! r_on r with
  | Some ac =>
      let '(n, ac') := AddFunc (r_queue r) (r_consumer r) (r_fn r) seq ac in
      (n, <[r_on r := ac']> acs,
       issued ++ [r_consumer r +:+ "-" +:+ FormatUint n])
  | None => p
  end.

(** A process that has created [n] consumers and registered nothing. *)
Definition fresh_process (n : nat) : Process :=
  (0, replicate n NewAmqpxConsumer, []).

Definition registrations_on (c : nat) (regs : list Registration) : nat :=
  length (filter (λ r, r_on r = c) regs).

End RegistrationDefinitions.

Arguments Registration : clear implicits.
Arguments Process : clear implicits.

(** ** Invariants

    The predicates the proofs of Part II maintain. *)

(** A string contains a hyphen. *)
Fixpoint has_dash (s : string) : bool :=
  match s with
  | EmptyString => false
  | String c s' => if decide (c = "-"%char) then true else has_dash s'
  end.

Section InvariantDefinitions.
Context {U : Type}.
Implicit Types (s : Sys U) (tr : list Event) (i j : nat)
  (ts : list (Task U)) (regs : list (Registration U)).

(** What holds of a process after the registrations [regs], made on the
    consumers [0 .. n-1] of a fresh process. *)
Record reg_inv (n : nat) regs (p : Process U) : Prop := {
  ri_seq : p.1.1 = Z.of_nat (length regs);
  ri_consumers : length p.1.2 = n;
  ri_issued : ∀ (i : nat) r, regs !! i = Some r →
    p.2 !! i = Some (r_consumer r +:+ "-" +:+ FormatUint (Z.of_nat i + 1));
  ri_length : length p.2 = length regs;
  ri_nodup : NoDup p.2;
  ri_keys : ∀ (c : nat) ac k, p.1.2 !! c = Some ac →
    is_Some (entries ac !! k) → k ∈ p.2;
  ri_bound : ∀ (i : nat) r, regs !! i = Some r →
    ∃ ac, p.1.2 !! r_on r = Some ac
          ∧ entries ac !! (r_consumer r +:+ "-" +:+ FormatUint (Z.of_nat i + 1))
            = Some (mkEntry (r_queue r) (r_fn r));
  ri_size : ∀ (c : nat) ac, p.1.2 !! c = Some ac →
    size (entries ac) = registrations_on c regs
}.

(** The loop goroutines that have not yet run their deferred [Done]. *)
Definition live ts : nat := length (filter (λ t, t_pc t ≠ Exited) ts).

(** What is known once [Wait] has returned in the shutdown goroutine [j]:
    every identity registered by the time [Stop] was called has been
    cancelled by then, and every loop goroutine launched by then has
    exited by then. *)
Definition waited j tr : Prop :=
  (∀ csr, before tr (EvAddFunc csr) (EvStop j) →
          before tr (EvCancel j csr) (EvWaitReturn j))
  ∧ (∀ i csr, before tr (EvGo i csr) (EvWaitReturn j) →
              before tr (EvExit i) (EvWaitReturn j)).

(** The trace agrees with the program point of the shutdown goroutine. *)
Definition sd_ok j (pc : SdPc) tr : Prop :=
  match pc with
  | SdRange =>
      (EvWaitReturn j ∉ tr) ∧ (EvClose j ∉ tr) ∧ (EvCtxDone j ∉ tr)
  | SdCancel rest =>
      (EvWaitReturn j ∉ tr) ∧ (EvClose j ∉ tr) ∧ (EvCtxDone j ∉ tr)
      ∧ ∀ csr, before tr (EvAddFunc csr) (EvStop j) →
               csr ∈ rest ∨ EvCancel j csr ∈ tr
  | SdWait =>
      (EvWaitReturn j ∉ tr) ∧ (EvClose j ∉ tr) ∧ (EvCtxDone j ∉ tr)
      ∧ ∀ csr, before tr (EvAddFunc csr) (EvStop j) → EvCancel j csr ∈ tr
  | SdClose =>
      EvWaitReturn j ∈ tr ∧ waited j tr
      ∧ (EvClose j ∉ tr) ∧ (EvCtxDone j ∉ tr)
  | SdCtxCancel =>
      waited j tr ∧ before tr (EvWaitReturn j) (EvClose j)
      ∧ (EvCtxDone j ∉ tr)
  | SdFinished =>
      waited j tr ∧ before tr (EvWaitReturn j) (EvClose j)
      ∧ before tr (EvClose j) (EvCtxDone j)
  end.

Record Inv s : Prop := {
  inv_registry : ∀ csr,
    EvAddFunc csr ∈ trace s → is_Some (entries (ac s) !! csr);
  inv_go : ∀ i csr, EvGo i csr ∈ trace s → (i < length (tasks s))%nat;
  inv_exit : ∀ i t,
    tasks s !! i = Some t → t_pc t = Exited → EvExit i ∈ trace s;
  inv_wg : jobWaiter (ac s) = Z.of_nat (live (tasks s));
  inv_sd : ∀ j pc, shutdowns s !! j = Some pc → sd_ok j pc (trace s);
  inv_handles : ∀ e j,
    e ∈ trace s → sd_of e = Some j → (j < length (shutdowns s))%nat;
  inv_stop : ∀ j, (j < length (shutdowns s))%nat → EvStop j ∈ trace s
}.

End InvariantDefinitions.

(** ** Sample inputs *)

Definition always_ok : HandlerFunc unit := λ _ u, (u, Returns None).
Definition always_fails : HandlerFunc unit :=
  λ _ u, (u, Returns (Some "cannot decode")).
Definition always_panics : HandlerFunc unit :=
  λ _ u, (u, Panics "runtime error: index out of range" []).

(** A handler with state: it counts its calls and fails on every second one. *)
Definition flaky : HandlerFunc nat := λ _ n,
  (S n, if Nat.even n then Returns None else Returns (Some "busy")).

Definition sample_deliveries : list Delivery :=
  [mkDelivery 1 []; mkDelivery 2 ["a"%byte]; mkDelivery 3 []].

(** A scripted transport: the connection singleton is absent, live or
    closed; the outcomes of the next calls of [Init] and of
    [Connection.Channel()] are listed ([true]: success; when the list is
    exhausted the call succeeds); channels are numbered as they are opened. *)
Record ToyWorld : Type := mkToyWorld {
  tw_conn : option bool;        (* [None]: nil; [Some true]: live; [Some false]: closed *)
  tw_dial : list bool;
  tw_open : list bool;
  tw_next : nat;
  tw_live : list nat
}.

Definition toy_Init (w : ToyWorld) : error * ToyWorld :=
  match tw_dial w with
  | false :: rest =>
      (Some "dial tcp 127.0.0.1:5672: connect: connection refused",
       mkToyWorld (tw_conn w) rest (tw_open w) (tw_next w) (tw_live w))
  | _ =>
      (None,
       mkToyWorld (Some true) (tail (tw_dial w)) (tw_open w) (tw_next w)
                  (tw_live w))
  end.

Definition toy_Channel (w : ToyWorld) : (nat + string) * ToyWorld :=
  match tw_open w with
  | false :: rest =>
      (inr "channel/connection is not open",
       mkToyWorld (tw_conn w) (tw_dial w) rest (tw_next w) (tw_live w))
  | _ =>
      (inl (tw_next w),
       mkToyWorld (tw_conn w) (tw_dial w) (tail (tw_open w)) (S (tw_next w))
                  (tw_next w :: tw_live w))
  end.

Definition ToyTransport : Transport := {|
  World := ToyWorld;
  Channel := nat;
  Connection_nil := λ w, bool_decide (tw_conn w = None);
  Connection_IsClosed := λ w, bool_decide (tw_conn w = Some false);
  Init := toy_Init;
  Connection_Channel := toy_Channel;
  Channel_IsClosed := λ ch w, bool_decide (ch ∉ tw_live w);
  Channel_Close := λ ch w,
    (None, mkToyWorld (tw_conn w) (tw_dial w) (tw_open w) (tw_next w)
                      (filter (λ c, c ≠ ch) (tw_live w)))
|}.

Definition toy_new : @Amqpx ToyTransport := mkAmqpx None.
Definition toy_ch : @Channel ToyTransport := 2%nat.
Definition toy_ad : @Amqpx ToyTransport := mkAmqpx (Some toy_ch).

(** No connection yet, the first dial fails, the second succeeds. *)
Definition toy_start : ToyWorld := mkToyWorld None [false; true] [] 0 [].

(** A live connection on which the next [Channel()] fails. *)
Definition toy_busy : ToyWorld := mkToyWorld (Some true) [] [false] 3 [2%nat].

(** ** Sample runs of the supervisor *)

(** One binding, started; a delivery is handled; [Stop]; the shutdown
    goroutine cancels, waits for the loop to leave, closes and resolves. *)
Definition run_to_shutdown : list (Action unit) :=
  [CallAddFunc "orders" "w1" always_ok; CallStart ["w1-1"];
   StepLoop 0 Tick; StepLoop 0 GotStream;
   StepLoop 0 (GotDelivery (mkDelivery 1 []));
   CallStop;
   StepShutdown 0 ["w1-1"]; StepShutdown 0 []; StepShutdown 0 [];
   StepLoop 0 StreamEnd; StepLoop 0 Tick; StepLoop 0 Tick;
   StepShutdown 0 []; StepShutdown 0 []; StepShutdown 0 []].

Definition stopped : Sys unit :=
  default (initial tt) (exec run_to_shutdown (initial tt)).

(** One binding, started. *)
Definition run_to_started : list (Action unit) :=
  [CallAddFunc "orders" "w1" always_ok; CallStart ["w1-1"]].

Definition started : Sys unit :=
  default (initial tt) (exec run_to_started (initial tt)).



(** After a late registration: [Stop] and its goroutine up to [Wait]. *)
Definition run_late_stop : list (Action unit) :=
  [StepLoop 0 Tick; StepLoop 0 (GotErr "channel/connection is not open");
   CallStop; StepLoop 0 Tick; StepLoop 0 Tick;
   StepShutdown 0 ["w2-2"; "w1-1"]; StepShutdown 0 []; StepShutdown 0 [];
   StepShutdown 0 []; StepShutdown 0 []].

Definition late_stopped : Sys unit :=
  default (initial tt)
    (exec run_late_stop (sys_AddFunc "events" "w2" always_ok started)).

Definition two_bindings : Sys unit :=
  sys_AddFunc "events" "w2" always_fails
    (sys_AddFunc "orders" "w1" always_ok (initial tt)).

Definition sample_registrations : list (Registration unit) :=
  [mkRegistration 0 "orders" "w" always_ok;
   mkRegistration 1 "orders" "w" always_ok;
   mkRegistration 0 "events" "w" always_fails].

(* ===================================================================== *)
(** * Part II. Properties *)
(* ===================================================================== *)

(** ** Strings: the identity [label-number] determines its number *)

Lemma has_dash_app_dash (a b : string) :
  has_dash (a +:+ String "-"%char b) = true.
Proof.
  induction a as [|c a IH]; simpl.
  - done.
  - rewrite IH. by case_decide.
Qed.

Lemma identity_inj (l1 l2 d1 d2 : string) :
  has_dash d1 = false → has_dash d2 = false →
  l1 +:+ "-" +:+ d1 = l2 +:+ "-" +:+ d2 → l1 = l2 ∧ d1 = d2.
Proof.
  revert l2. induction l1 as [|c l1 IH]; intros [|c' l2] H1 H2 Heq.
  - change (String "-" d1 = String "-" d2) in Heq. by simplify_eq.
  - change (String "-" d1 = String c' (l2 +:+ String "-" d2)) in Heq.
    simplify_eq. by rewrite has_dash_app_dash in H1.
  - change (String c (l1 +:+ String "-" d1) = String "-" d2) in Heq.
    simplify_eq. by rewrite has_dash_app_dash in H2.
  - change (String c (l1 +:+ "-" +:+ d1) = String c' (l2 +:+ "-" +:+ d2))
      in Heq.
    simplify_eq. by destruct (IH l2 H1 H2) as [-> ->].
Qed.

Lemma pretty_N_char_no_dash (x : N) : pretty_N_char x ≠ "-"%char.
Proof. unfold pretty_N_char. repeat case_match; discriminate. Qed.

Lemma pretty_N_go_no_dash (x : N) (s : string) :
  has_dash s = false → has_dash (pretty_N_go x s) = false.
Proof.
  revert s. induction (N.lt_wf_0 x) as [x _ IH]. intros s Hs.
  destruct (decide (x = 0%N)) as [->|Hx].
  - by rewrite pretty_N_go_0.
  - rewrite pretty_N_go_step by lia. apply IH.
    + apply N.div_lt; lia.
    + simpl. case_decide as Hc; [|done].
      by apply pretty_N_char_no_dash in Hc.
Qed.

Lemma FormatUint_no_dash (n : Z) : has_dash (FormatUint n) = false.
Proof.
  unfold FormatUint, pretty, pretty_N. case_decide; [done|].
  by apply pretty_N_go_no_dash.
Qed.

Lemma FormatUint_inj (n m : Z) :
  0 ≤ n → 0 ≤ m → FormatUint n = FormatUint m → n = m.
Proof.
  unfold FormatUint. intros Hn Hm Heq. apply (inj pretty) in Heq. lia.
Qed.

Lemma identity_number (l1 l2 : string) (n m : Z) :
  0 ≤ n → 0 ≤ m →
  l1 +:+ "-" +:+ FormatUint n = l2 +:+ "-" +:+ FormatUint m → n = m.
Proof.
  intros Hn Hm Heq.
  apply identity_inj in Heq as [_ Heq]; auto using FormatUint_no_dash.
  by apply FormatUint_inj.
Qed.

(** ** Deliveries and their dispositions *)

Section Deliveries.
Context {U : Type}.
Implicit Types (handler : HandlerFunc U) (u : U) (dely : Delivery).

Lemma dispositions_app (t1 t2 : list Event) :
  dispositions (t1 ++ t2) = dispositions t1 ++ dispositions t2.
Proof. apply filter_app. Qed.

(** Whatever the handler does, [deliver] issues one disposition, and it is
    for the delivery at hand. *)
Lemma deliver_dispositions handler dely u :
  dispositions (deliver handler dely u).2 = [EvAck (DeliveryTag dely) false]
  ∨ dispositions (deliver handler dely u).2
    = [EvReject (DeliveryTag dely) true].
Proof.
  unfold deliver, runWithRecovery.
  destruct (handler (Body dely) u) as [u' [[e|]|r stack]]; simpl; auto.
Qed.

Lemma deliver_dispositions_length handler dely u :
  length (dispositions (deliver handler dely u).2) = 1%nat.
Proof. by destruct (deliver_dispositions handler dely u) as [-> | ->]. Qed.

Lemma range_deliveries_cons handler dely rest u :
  range_deliveries handler (dely :: rest) u
  = ((range_deliveries handler rest (deliver handler dely u).1).1,
     (deliver handler dely u).2
     ++ (range_deliveries handler rest (deliver handler dely u).1).2).
Proof.
  simpl. destruct (deliver handler dely u) as [u1 t1]; simpl.
  by destruct (range_deliveries handler rest u1).
Qed.

Lemma range_deliveries_length handler deliveries u :
  length (dispositions (range_deliveries handler deliveries u).2)
  = length deliveries.
Proof.
  revert u. induction deliveries as [|dely rest IH]; intros u; [done|].
  rewrite range_deliveries_cons; simpl.
  by rewrite dispositions_app, length_app, deliver_dispositions_length, IH.
Qed.

(** The disposition at position [i] is the one [deliver] issues for the
    [i]-th delivery, in the handler state the earlier deliveries left. *)
Lemma range_deliveries_lookup handler deliveries u (i : nat) dely :
  deliveries !! i = Some dely →
  dispositions
    (deliver handler dely
       (range_deliveries handler (take i deliveries) u).1).2
  = [default (EvLog "") (dispositions
                (range_deliveries handler deliveries u).2 !! i)].
Proof.
  revert u i. induction deliveries as [|d rest IH]; intros u i Hi; [done|].
  rewrite (range_deliveries_cons handler d rest u).
  cbn [snd]. rewrite dispositions_app.
  destruct i as [|i].
  - injection Hi as ->. cbn [take range_deliveries fst].
    by destruct (deliver_dispositions handler dely u) as [-> | ->].
  - change (take (S i) (d :: rest)) with (d :: take i rest).
    rewrite range_deliveries_cons. cbn [fst].
    rewrite (IH _ _ Hi).
    rewrite lookup_app_r; rewrite deliver_dispositions_length; [|lia].
    by replace (S i - 1)%nat with i by lia.
Qed.

Lemma filter_none {A} (P : A → Prop) `{∀ x, Decision (P x)} (l : list A) :
  (∀ y, y ∈ l → ¬ P y) → filter P l = [].
Proof.
  induction l as [|a l IH]; intros Hn; [done|].
  rewrite filter_cons_False by (apply Hn; by left).
  apply IH. intros y Hy. apply Hn. by right.
Qed.

(** In a list whose elements have distinct keys, the elements with the key
    of the [i]-th one are that one alone. *)
Lemma filter_unique {A B} `{EqDecision B} (f : A → B) (l : list A)
    (i : nat) (x : A) :
  NoDup (f <$> l) → l !! i = Some x → filter (λ y, f y = f x) l = [x].
Proof.
  revert i. induction l as [|a l IH]; intros i Hnd Hi; [done|].
  rewrite fmap_cons in Hnd. apply NoDup_cons in Hnd as [Ha Hnd].
  destruct i as [|i]; simpl in Hi.
  - injection Hi as ->. rewrite filter_cons_True by done. f_equal.
    apply filter_none. intros y Hy Heq. apply Ha. rewrite <-Heq.
    by apply list_elem_of_fmap_2.
  - rewrite filter_cons_False; [by eapply IH|].
    intros Heq. apply Ha. rewrite Heq.
    apply list_elem_of_fmap_2. by eapply list_elem_of_lookup_2.
Qed.

Lemma range_deliveries_tags handler deliveries u :
  disposition_tag <$> dispositions (range_deliveries handler deliveries u).2
  = (λ d, Some (DeliveryTag d)) <$> deliveries.
Proof.
  revert u. induction deliveries as [|dely rest IH]; intros u; [done|].
  rewrite range_deliveries_cons. cbn [snd].
  rewrite dispositions_app, fmap_app, IH, fmap_cons. f_equal.
  by destruct (deliver_dispositions handler dely u) as [-> | ->].
Qed.

(** C2. Every delivery drained from a consume stream gets exactly one
    terminal disposition: the dispositions of [consume] are as many as the
    deliveries, the one at position [i] is for the [i]-th delivery; it is
    [Reject] with requeue=true when the handler returned an error on that
    delivery, and [Ack] with multiple=false when it returned nil. When the
    delivery tags of the stream are distinct, that disposition is the only
    event of the trace that disposes of the delivery. The loop step of the
    running supervisor issues the same events per delivery. *)
Theorem consume_one_disposition_per_delivery
    (queue consumer : string) handler (deliveries : list Delivery) u :
  let tr := (consume queue consumer handler (ConsumeStream deliveries) u).2 in
  length (dispositions tr) = length deliveries
  ∧ (∀ (i : nat) dely, deliveries !! i = Some dely →
       let u_i := (range_deliveries handler (take i deliveries) u).1 in
       (∀ e, (handler (Body dely) u_i).2 = Returns (Some e) →
             dispositions tr !! i = Some (EvReject (DeliveryTag dely) true))
       ∧ ((handler (Body dely) u_i).2 = Returns None →
             dispositions tr !! i = Some (EvAck (DeliveryTag dely) false))
       ∧ (∃ m, dispositions tr !! i = Some (EvAck (DeliveryTag dely) m)
               ∨ dispositions tr !! i = Some (EvReject (DeliveryTag dely) m)))
  ∧ (NoDup (DeliveryTag <$> deliveries) →
     ∀ (i : nat) dely, deliveries !! i = Some dely →
       ∃ ev, dispositions tr !! i = Some ev
             ∧ filter (λ e, disposition_tag e = Some (DeliveryTag dely)) tr
               = [ev])
  ∧ (∀ (r : bool) csr (e : entry U) dely,
       Handler e = handler →
       run_step r csr e AtRange (GotDelivery dely) u
       = Some (AtRange, (deliver handler dely u).1,
               (deliver handler dely u).2)).
Proof.
  intros tr.
  assert (Htr : dispositions tr
                = dispositions (range_deliveries handler deliveries u).2).
  { unfold tr, consume.
    by destruct (range_deliveries handler deliveries u). }
  assert (Hlen : ∀ (i : nat) dely, deliveries !! i = Some dely →
            is_Some (dispositions
                       (range_deliveries handler deliveries u).2 !! i)).
  { intros i dely Hi. apply lookup_lt_is_Some.
    rewrite range_deliveries_length. by eapply lookup_lt_Some. }
  rewrite Htr. split; [apply range_deliveries_length|]. split; [|split].
  - intros i dely Hi u_i.
    pose proof (range_deliveries_lookup handler deliveries u i dely Hi)
      as Hl. fold u_i in Hl.
    assert (Hlt : (i < length (dispositions
              (range_deliveries handler deliveries u).2))%nat).
    { rewrite range_deliveries_length. by eapply lookup_lt_Some. }
    apply lookup_lt_is_Some in Hlt as [ev Hev].
    rewrite Hev in Hl |- *. simpl in Hl.
    unfold deliver, runWithRecovery in Hl.
    destruct (handler (Body dely) u_i) as [u' [[err|]|r stack]];
      cbn in Hl; injection Hl as <-;
      repeat split; intros; simplify_eq; eauto.
  - intros Hnd i dely Hi. destruct (Hlen i dely Hi) as [ev Hev].
    exists ev. split; [done|].
    pose proof (range_deliveries_tags handler deliveries u) as Htags.
    assert (Htag : disposition_tag ev = Some (DeliveryTag dely)).
    { apply (f_equal (λ l, l !! i)) in Htags.
      by rewrite !list_lookup_fmap, Hev, Hi in Htags; injection Htags. }
    assert (Hfilter :
      filter (λ e, disposition_tag e = Some (DeliveryTag dely)) tr
      = filter (λ e, disposition_tag e = Some (DeliveryTag dely))
          (dispositions tr)).
    { unfold dispositions. rewrite list_filter_filter.
      apply list_filter_iff. intros e. split; [|by intros [? _]].
      intros He. split; [done|]. by destruct e. }
    rewrite Hfilter, Htr, <-Htag. apply (filter_unique _ _ i); [|done].
    rewrite Htags.
    change ((λ d, Some (DeliveryTag d)) <$> deliveries)
      with ((Some ∘ DeliveryTag) <$> deliveries).
    rewrite list_fmap_compose. by apply (NoDup_fmap_2 Some).
  - intros r csr e dely <-. simpl.
    by destruct (deliver (Handler e) dely u).
Qed.

(** C1 (as the code has it). A handler that panics on a delivery is
    contained: [runWithRecovery] logs the panic with at most 64 KiB of
    stack and returns nil, so [consume] acknowledges the delivery with
    multiple=false and issues no reject; the loop stays in its range and
    goes on to the deliveries that follow. *)
Theorem panic_is_recovered_and_acknowledged
    handler dely u u' (r : string) (stack : list byte) :
  handler (Body dely) u = (u', Panics r stack) →
  let buf := take (Z.to_nat stack_size) stack in
  runWithRecovery handler (Body dely) u = (u', None, [EvPanicLog r buf])
  ∧ Z.of_nat (length buf) ≤ 65536
  ∧ deliver handler dely u
    = (u', [EvPanicLog r buf; EvAck (DeliveryTag dely) false])
  ∧ (∀ (running : bool) csr (e : entry U), Handler e = handler →
       run_step running csr e AtRange (GotDelivery dely) u
       = Some (AtRange, u',
               [EvPanicLog r buf; EvAck (DeliveryTag dely) false]))
  ∧ (∀ rest,
       (range_deliveries handler (dely :: rest) u).2
       = [EvPanicLog r buf; EvAck (DeliveryTag dely) false]
         ++ (range_deliveries handler rest u').2).
Proof.
  intros Hp buf.
  assert (Hr : runWithRecovery handler (Body dely) u
               = (u', None, [EvPanicLog r buf])).
  { unfold runWithRecovery. by rewrite Hp. }
  assert (Hd : deliver handler dely u
               = (u', [EvPanicLog r buf; EvAck (DeliveryTag dely) false])).
  { unfold deliver. by rewrite Hr. }
  split; [done|]. split.
  { unfold buf. rewrite length_take.
    change 65536 with (Z.of_nat (Z.to_nat stack_size)). lia. }
  split; [done|]. split.
  - intros running csr e <-. simpl. by rewrite Hd.
  - intros rest. rewrite range_deliveries_cons. by rewrite Hd.
Qed.

End Deliveries.

(** ** Registration: identities *)

Section Registrations.
Context {U : Type}.
Implicit Types (r : Registration U) (regs : list (Registration U))
  (acs : list (AmqpxConsumer U)) (issued : list string).

Lemma AddUint64_no_wrap (v : Z) : 0 ≤ v → v + 1 < 2 ^ 64 → AddUint64 v 1 = v + 1.
Proof. intros. unfold AddUint64. apply Z.mod_small. lia. Qed.

Lemma reg_inv_fresh (n : nat) : reg_inv (U := U) n [] (fresh_process n).
Proof.
  split; simpl; try done.
  - apply length_replicate.
  - constructor.
  - intros c ac k [-> _]%lookup_replicate [x Hx]. simpl in Hx.
    by rewrite lookup_empty in Hx.
  - intros c ac [-> _]%lookup_replicate. simpl. by rewrite map_size_empty.
Qed.

Lemma issued_fresh (n : nat) regs (p : Process U) (label : string) :
  reg_inv n regs p →
  label +:+ "-" +:+ FormatUint (Z.of_nat (length regs) + 1) ∉ p.2.
Proof.
  intros Hinv [i Hi]%list_elem_of_lookup_1.
  assert (Hlt : (i < length regs)%nat).
  { rewrite <-(ri_length _ _ _ Hinv). by eapply lookup_lt_Some. }
  apply lookup_lt_is_Some in Hlt as [r Hr].
  rewrite (ri_issued _ _ _ Hinv i r Hr) in Hi. injection Hi as Hi.
  apply identity_number in Hi; [|lia..].
  apply lookup_lt_Some in Hr. lia.
Qed.

Lemma reg_inv_register (n : nat) regs (p : Process U) r :
  reg_inv n regs p → (r_on r < n)%nat →
  Z.of_nat (length regs) + 1 < 2 ^ 64 →
  reg_inv n (regs ++ [r]) (register p r).
Proof.
  intros Hinv Hon Hbound.
  pose proof (issued_fresh n regs p (r_consumer r) Hinv) as Hfresh.
  destruct Hinv as [Hseq Hcons Hiss Hlen Hnd Hkeys Hbnd Hsize].
  destruct p as [[seq acs] issued]; simpl in *.
  assert (Hac : is_Some (acs !! r_on r)).
  { apply lookup_lt_is_Some. lia. }
  destruct Hac as [ac Hac]. rewrite Hac.
  unfold AddFunc. rewrite Hseq, AddUint64_no_wrap by lia.
  set (k := r_consumer r +:+ "-" +:+ FormatUint (Z.of_nat (length regs) + 1))
    in *.
  assert (Hknew : entries ac !! k = None).
  { destruct (entries ac !! k) eqn:Hk; [|done].
    destruct Hfresh. by eapply Hkeys. }
  split; simpl.
  - rewrite length_app. simpl. lia.
  - by rewrite length_insert.
  - intros i r' [[_ Hr']|[Hi <-]]%lookup_snoc_Some.
    + rewrite lookup_app_l by (rewrite Hlen; by eapply lookup_lt_Some).
      by apply Hiss.
    + subst i. rewrite lookup_app_r by lia. by rewrite Hlen, Nat.sub_diag.
  - rewrite !length_app. simpl. lia.
  - apply NoDup_app. split_and!; [done| |apply NoDup_singleton].
    intros x Hx ->%list_elem_of_singleton. done.
  - intros c ac' k' Hc Hk'.
    apply elem_of_app.
    destruct (decide (c = r_on r)) as [->|Hne].
    + rewrite list_lookup_insert_eq in Hc by lia. injection Hc as <-.
      simpl in Hk'. destruct (decide (k = k')) as [<-|Hkk].
      * right. by apply list_elem_of_singleton.
      * left. rewrite lookup_insert_ne in Hk' by done. by eapply Hkeys.
    + rewrite list_lookup_insert_ne in Hc by done. left. by eapply Hkeys.
  - intros i r' [[_ Hr']|[Hi <-]]%lookup_snoc_Some.
    + destruct (Hbnd i r' Hr') as (ac' & Hac' & Hb).
      destruct (decide (r_on r' = r_on r)) as [Heq|Hne].
      * rewrite Heq, list_lookup_insert_eq by lia.
        eexists; split; [done|]. simpl.
        rewrite Heq, Hac in Hac'. injection Hac' as <-.
        rewrite lookup_insert_ne; [done|].
        intros Hk. rewrite <-Hk, Hknew in Hb. done.
      * rewrite list_lookup_insert_ne by done. eauto.
    + rewrite list_lookup_insert_eq by lia.
      eexists; split; [done|]. simpl. subst i.
      by rewrite lookup_insert_eq.
  - intros c ac' Hc. unfold registrations_on.
    rewrite filter_app, length_app.
    destruct (decide (c = r_on r)) as [->|Hne].
    + rewrite list_lookup_insert_eq in Hc by lia. injection Hc as <-.
      simpl. rewrite map_size_insert_None by done.
      rewrite (Hsize _ _ Hac). unfold registrations_on.
      rewrite filter_cons_True by done. simpl. lia.
    + rewrite list_lookup_insert_ne in Hc by done.
      rewrite (Hsize _ _ Hc). unfold registrations_on.
      rewrite filter_cons_False by done. simpl. lia.
Qed.

Lemma reg_inv_foldl (n : nat) regs :
  Z.of_nat (length regs) < 2 ^ 64 →
  Forall (λ r, (r_on r < n)%nat) regs →
  reg_inv n regs (foldl register (fresh_process n) regs).
Proof.
  induction regs as [|r regs IH] using rev_ind; intros Hlen Hon.
  - apply reg_inv_fresh.
  - rewrite foldl_snoc. rewrite length_app in Hlen. simpl in Hlen.
    apply Forall_app in Hon as [Hon Hr]. apply Forall_cons in Hr as [Hr _].
    apply reg_inv_register; [apply IH; [lia|done]|done|lia].
Qed.

(** C5. Registrations made anywhere in the process, fewer than 2^64 of
    them, starting from a fresh process: the [i]-th call (counting from 0)
    gets the identity made of its label, a hyphen and the number [i+1], so
    the numbers increase strictly from call to call; the identities issued
    are pairwise distinct, also for equal labels; every binding is still in
    its registry under its identity; and each registry has as many entries
    as registrations were made on it: none overwrote another. *)
Theorem AddFunc_identities_distinct (n : nat) regs :
  Z.of_nat (length regs) < 2 ^ 64 →
  Forall (λ r, (r_on r < n)%nat) regs →
  let p := foldl register (fresh_process n) regs in
  p.1.1 = Z.of_nat (length regs)
  ∧ (∀ (i : nat) r, regs !! i = Some r →
       p.2 !! i = Some (r_consumer r +:+ "-" +:+ FormatUint (Z.of_nat i + 1)))
  ∧ NoDup p.2
  ∧ (∀ (i : nat) r, regs !! i = Some r →
       ∃ ac, p.1.2 !! r_on r = Some ac
             ∧ entries ac !! (r_consumer r +:+ "-" +:+ FormatUint (Z.of_nat i + 1))
               = Some (mkEntry (r_queue r) (r_fn r)))
  ∧ (∀ (c : nat) ac, p.1.2 !! c = Some ac →
       size (entries ac) = registrations_on c regs).
Proof.
  intros Hlen Hon p.
  destruct (reg_inv_foldl n regs Hlen Hon); auto.
Qed.

End Registrations.

(** ** The per-binding loop *)

Section Loop.
Context {U : Type}.
Implicit Types (e : entry U) (u : U) (pc : LoopPc)
  (script : list (bool * LoopInput)).

Lemma run_steps_app csr e script1 script2 pc u :
  run_steps csr e (script1 ++ script2) pc u
  = let '(pc1, u1, t1) := run_steps csr e script1 pc u in
    let '(pc2, u2, t2) := run_steps csr e script2 pc1 u1 in
    (pc2, u2, t1 ++ t2).
Proof.
  revert pc u. induction script1 as [|[r inp] script1 IH]; intros pc u; simpl.
  - by destruct (run_steps csr e script2 pc u) as [[??]?].
  - destruct (run_step r csr e pc inp u) as [[[pc1 u1] t1]|]; [|apply IH].
    rewrite IH.
    destruct (run_steps csr e script1 pc1 u1) as [[pc2 u2] t2].
    destruct (run_steps csr e script2 pc2 u2) as [[pc3 u3] t3].
    by rewrite app_assoc.
Qed.

(** The steps of the loop inside the range are the body of [consume]'s
    range, whatever the running flag is meanwhile. *)
Lemma run_steps_range csr e (flag : Delivery → bool)
    (deliveries : list Delivery) u :
  run_steps csr e ((λ d, (flag d, GotDelivery d)) <$> deliveries) AtRange u
  = (AtRange, (range_deliveries (Handler e) deliveries u).1,
     (range_deliveries (Handler e) deliveries u).2).
Proof.
  revert u. induction deliveries as [|d rest IH]; intros u; [done|].
  rewrite range_deliveries_cons. cbn [fmap list_fmap run_steps run_step].
  destruct (deliver (Handler e) d u) as [u1 t1]. cbn [fst snd].
  by rewrite IH.
Qed.

Lemma run_steps_exited csr e script pc u :
  pc = AtDone ∨ pc = Exited → run_steps csr e script pc u = (pc, u, []).
Proof.
  intros Hpc. induction script as [|[r inp] script IH]; [done|].
  simpl. by destruct Hpc as [-> | ->]; destruct inp.
Qed.

(** C7. One turn of the per-binding loop, from the loop head.
    - [Consume] fails: the loop logs the wrapped error, sleeps 15 s and is
      back at the loop head, where it retries if the flag is still set.
    - The stream ends without an error: the loop reads the running flag
      again; if it is set the loop sleeps 15 s, is back at the loop head
      and, the flag being set there too, calls [Consume] again; if it is
      not set the loop leaves without sleeping.
    - The flag is not set at the loop head: the loop leaves.
    - Once it has left, no step of it does anything: no further
      [Consume]. *)
Theorem run_backoff_and_exit csr e u :
  (∀ (r : bool) err,
     run_steps csr e [(true, Tick); (r, GotErr err)] AtFor u
     = (AtFor, u,
        [EvConsume (Queue e) csr;
         EvLog ("amqpd-consumer: run error: amqpd consume err: "
                +:+ err +:+ newline);
         EvSleep 15000000000])
     ∧ (consume (Queue e) csr (Handler e) (ConsumeErr err) u).1.2
       = Some ("amqpd consume err: " +:+ err))
  ∧ (∀ (r r' : bool) flag deliveries,
       let c := consume (Queue e) csr (Handler e)
                        (ConsumeStream deliveries) u in
       let drained :=
         [(true, Tick); (r, GotStream)]
         ++ ((λ d, (flag d, GotDelivery d)) <$> deliveries)
         ++ [(r', StreamEnd)] in
       c.1.2 = None
       ∧ run_steps csr e drained AtFor u = (AtRunningCheck, c.1.1, c.2)
       ∧ run_steps csr e (drained ++ [(true, Tick)]) AtFor u
         = (AtFor, c.1.1, c.2 ++ [EvSleep 15000000000])
       ∧ run_steps csr e (drained ++ [(true, Tick); (true, Tick)]) AtFor u
         = (AtConsume, c.1.1, c.2 ++ [EvSleep 15000000000])
       ∧ run_steps csr e (drained ++ [(false, Tick)]) AtFor u
         = (AtDone, c.1.1, c.2))
  ∧ run_steps csr e [(false, Tick)] AtFor u = (AtDone, u, [])
  ∧ (∀ script pc, pc = AtDone ∨ pc = Exited →
       run_steps csr e script pc u = (pc, u, [])).
Proof.
  split; [by intros r err|]. split; [|split; [done|]].
  - intros r r' flag deliveries c drained.
    assert (Hc : c = ((range_deliveries (Handler e) deliveries u).1, None,
                      EvConsume (Queue e) csr
                      :: (range_deliveries (Handler e) deliveries u).2)).
    { unfold c, consume.
      by destruct (range_deliveries (Handler e) deliveries u). }
    assert (Hd : run_steps csr e drained AtFor u = (AtRunningCheck, c.1.1, c.2)).
    { unfold drained. cbn [app run_steps run_step].
      rewrite run_steps_app, run_steps_range. rewrite Hc. simpl.
      by rewrite app_nil_r. }
    split; [by rewrite Hc|]. split; [done|].
    rewrite !run_steps_app, Hd. simpl. by rewrite !app_nil_r.
  - intros script pc Hpc. by apply run_steps_exited.
Qed.

End Loop.

(** ** Traces *)

Lemma before_app_l (tr evs : list Event) (a b : Event) :
  before tr a b → before (tr ++ evs) a b.
Proof.
  intros (t1 & t2 & -> & Ha). exists t1, (t2 ++ evs).
  split; [|done]. by rewrite <-app_assoc.
Qed.

Lemma before_app_intro (tr evs : list Event) (a b : Event) :
  a ∈ tr → b ∈ evs → before (tr ++ evs) a b.
Proof.
  intros Ha (e1 & e2 & ->)%list_elem_of_split. exists (tr ++ e1), e2.
  split; [by rewrite <-app_assoc|]. apply elem_of_app. by left.
Qed.

Lemma before_app_inv (tr evs : list Event) (a b : Event) :
  b ∉ evs → before (tr ++ evs) a b → before tr a b.
Proof.
  intros Hb (t1 & t2 & Heq & Ha).
  apply app_eq_app in Heq as [l [[-> Heq]|[-> Heq]]].
  - destruct l as [|x l]; simpl in Heq.
    + destruct Hb. rewrite <-Heq. by left.
    + injection Heq as <- _. by exists t1, l.
  - destruct Hb. rewrite Heq. apply elem_of_app. right. by left.
Qed.

Lemma before_elem_r (tr : list Event) (a b : Event) : before tr a b → b ∈ tr.
Proof.
  intros (t1 & t2 & -> & _). apply elem_of_app. right. by left.
Qed.

Lemma before_elem_l (tr : list Event) (a b : Event) : before tr a b → a ∈ tr.
Proof. intros (t1 & t2 & -> & Ha). apply elem_of_app. by left. Qed.

Lemma before_snoc_inv (tr : list Event) (a b : Event) :
  b ∉ tr → before (tr ++ [b]) a b → a ∈ tr.
Proof.
  intros Hb (t1 & t2 & Heq & Ha).
  apply app_eq_app in Heq as [l [[-> Heq]|[-> Heq]]].
  - destruct l as [|x l]; simpl in Heq.
    + by rewrite app_nil_r.
    + injection Heq as <- _. destruct Hb. apply elem_of_app. right. by left.
  - destruct l as [|x l]; simpl in Heq.
    + by rewrite app_nil_r in Ha.
    + injection Heq as _ Heq. by destruct l.
Qed.

(** ** The supervisor and its goroutines: invariants *)

Section System.
Context {U : Type}.
Implicit Types (s : Sys U) (a : Action U) (tr evs : list Event)
  (i j : nat) (ts : list (Task U)) (t : Task U).

Lemma waited_app j tr evs :
  waited j tr → EvStop j ∉ evs → EvWaitReturn j ∉ evs →
  waited j (tr ++ evs).
Proof.
  intros [Hc Hx] Hs Hw. split.
  - intros csr Hb%before_app_inv; [|done]. by apply before_app_l, Hc.
  - intros i csr Hb%before_app_inv; [|done]. apply before_app_l. by eapply Hx.
Qed.

(** Events of other goroutines leave [sd_ok] for [j] as it is. *)
Lemma sd_ok_app j pc tr evs :
  sd_ok j pc tr → (∀ e, e ∈ evs → sd_of e ≠ Some j) → sd_ok j pc (tr ++ evs).
Proof.
  intros Hok Hf.
  assert (Hs : EvStop j ∉ evs) by (intros ?%Hf; done).
  assert (Hw : EvWaitReturn j ∉ evs) by (intros ?%Hf; done).
  assert (Hcl : EvClose j ∉ evs) by (intros ?%Hf; done).
  assert (Hd : EvCtxDone j ∉ evs) by (intros ?%Hf; done).
  destruct pc; simpl in *; rewrite ?not_elem_of_app.
  - destruct Hok as (? & ? & ?). by split_and!.
  - destruct Hok as (? & ? & ? & Hr). split_and!; try done.
    intros csr Hb%before_app_inv; [|done].
    destruct (Hr csr Hb); [by left|right]. apply elem_of_app. by left.
  - destruct Hok as (? & ? & ? & Hr). split_and!; try done.
    intros csr Hb%before_app_inv; [|done].
    apply elem_of_app. left. by apply Hr.
  - destruct Hok as (? & ? & ? & ?). split_and!; try done.
    + apply elem_of_app. by left.
    + by apply waited_app.
  - destruct Hok as (? & ? & ?). split_and!; try done.
    + by apply waited_app.
    + by apply before_app_l.
  - destruct Hok as (? & ? & ?). split_and!.
    + by apply waited_app.
    + by apply before_app_l.
    + by apply before_app_l.
Qed.

Lemma live_app ts1 ts2 : live (ts1 ++ ts2) = (live ts1 + live ts2)%nat.
Proof. unfold live. by rewrite filter_app, length_app. Qed.

Lemma live_insert ts i t (pc : LoopPc) :
  ts !! i = Some t → t_pc t ≠ Exited →
  (live ts ≥ 1)%nat
  ∧ live (<[i := mkTask (t_csr t) (t_entry t) pc]> ts)
    = if decide (pc = Exited) then (live ts - 1)%nat else live ts.
Proof.
  intros Hi Hpc.
  assert (Hlt : (i < length ts)%nat) by by eapply lookup_lt_Some.
  assert (Hl : live ts
               = (live (take i ts) + (1 + live (drop (S i) ts)))%nat).
  { rewrite <-(take_drop_middle ts i t Hi) at 1.
    rewrite live_app. f_equal. unfold live.
    by rewrite filter_cons_True. }
  rewrite insert_take_drop, live_app, Hl by done.
  split; [lia|].
  unfold live at 2. case_decide as Hd.
  - rewrite filter_cons_False by (simpl; intros Hn; by apply Hn).
    fold (live (drop (S i) ts)). lia.
  - rewrite filter_cons_True by done. simpl.
    fold (live (drop (S i) ts)). lia.
Qed.

Lemma live_zero ts i t : live ts = 0%nat → ts !! i = Some t → t_pc t = Exited.
Proof.
  intros Hz Hi. destruct (decide (t_pc t = Exited)) as [|Hne]; [done|].
  assert (Hin : t ∈ filter (λ t, t_pc t ≠ Exited) ts).
  { apply list_elem_of_filter. split; [done|]. by eapply list_elem_of_lookup_2. }
  unfold live in Hz. apply length_zero_iff_nil in Hz. rewrite Hz in Hin.
  by apply elem_of_nil in Hin.
Qed.

Lemma elem_of_keys s csr : csr ∈ keys s ↔ is_Some (entries (ac s) !! csr).
Proof.
  unfold keys. rewrite list_elem_of_fmap. split.
  - intros [[k v] [-> Hkv%elem_of_map_to_list]]. by exists v.
  - intros [v Hv]. exists (csr, v). split; [done|].
    by apply elem_of_map_to_list.
Qed.

(** Membership in a trace extended by a few events. *)
Ltac split_elem H :=
  repeat match type of H with
    | _ ∈ _ ++ _ => apply elem_of_app in H as [H|H]
    | _ ∈ _ :: _ => apply elem_of_cons in H as [H|H]
    | _ ∈ [] => by apply elem_of_nil in H
    end;
  try discriminate H.

Lemma Inv_initial (u : U) : Inv (initial u).
Proof.
  split; simpl; try done.
  - intros csr H. by apply elem_of_nil in H.
  - intros i csr H. by apply elem_of_nil in H.
  - intros e j H. by apply elem_of_nil in H.
  - intros j Hj. lia.
Qed.

(** A step that changes neither the shutdown goroutines nor the loop
    goroutines, and whose events belong to no shutdown goroutine, launch
    nothing and register only [ks], keeps the invariant. *)
Lemma Inv_frame s s' evs :
  Inv s →
  trace s' = trace s ++ evs →
  shutdowns s' = shutdowns s →
  (∀ e, e ∈ evs → sd_of e = None) →
  (∀ csr, is_Some (entries (ac s) !! csr) → is_Some (entries (ac s') !! csr)) →
  (∀ csr, EvAddFunc csr ∈ evs → is_Some (entries (ac s') !! csr)) →
  (∀ i csr, EvGo i csr ∈ evs → (i < length (tasks s'))%nat) →
  (length (tasks s) ≤ length (tasks s'))%nat →
  (∀ i t, tasks s' !! i = Some t → t_pc t = Exited →
     EvExit i ∈ evs
     ∨ ∃ t0, tasks s !! i = Some t0 ∧ t_pc t0 = Exited) →
  jobWaiter (ac s') = Z.of_nat (live (tasks s')) →
  Inv s'.
Proof.
  intros [Hreg Hgo Hex Hwg Hsd Hh Hst] Htr Hsds Hplain Hmono Hadd Hgo' Hlen
    Hex' Hwg'.
  split; rewrite ?Htr, ?Hsds.
  - intros csr H. split_elem H; [by apply Hmono, Hreg|by apply Hadd].
  - intros i csr H. split_elem H; [|by eapply Hgo'].
    apply Hgo in H. lia.
  - intros i t Hi Hpc. apply elem_of_app.
    destruct (Hex' i t Hi Hpc) as [?|(t0 & Ht0 & Hpc0)]; [by right|left].
    by eapply Hex.
  - done.
  - intros j pc Hj. apply sd_ok_app; [by apply Hsd|].
    intros e He. by rewrite (Hplain e He).
  - intros e j H Hj. split_elem H; [by eapply Hh|].
    by rewrite (Hplain e H) in Hj.
  - intros j Hj. apply elem_of_app. left. by apply Hst.
Qed.

Lemma Inv_AddFunc s (queue consumer : string) (fn : HandlerFunc U) :
  Inv s → Inv (sys_AddFunc queue consumer fn s).
Proof.
  intros Hinv.
  eapply (Inv_frame s _ [EvAddFunc _] Hinv); simpl; try done.
  - intros e He. split_elem He. by subst.
  - intros csr Hc. apply lookup_insert_is_Some.
    destruct (decide (consumer +:+ "-" +:+ FormatUint
                        (AddUint64 (consumerSeq s) 1) = csr)); auto.
  - intros csr He. split_elem He. injection He as ->.
    by rewrite lookup_insert_eq.
  - intros i csr He. by split_elem He.
  - intros i t Hi Hpc. right. eauto.
  - apply (inv_wg _ Hinv).
Qed.

Lemma Inv_launch s (k : string) : Inv s → Inv (launch s k).
Proof.
  intros Hinv. unfold launch.
  destruct (entries (ac s) !! k) as [v|] eqn:Hk; [|done].
  eapply (Inv_frame s _ [EvWgAdd 1; EvGo _ k] Hinv); simpl; try done.
  - intros e He. split_elem He; by subst.
  - intros csr He. by split_elem He.
  - intros i csr He. split_elem He. injection He as -> _.
    rewrite length_app. simpl. lia.
  - rewrite length_app. lia.
  - intros i t [Hi|[_ Hi]]%lookup_app_Some Hpc; [right; eauto|].
    destruct (i - length (tasks s))%nat; [|done].
    simpl in Hi. injection Hi as <-. done.
  - assert (live [mkTask k v AtFor] = 1%nat) as Hone.
    { unfold live. by rewrite filter_cons_True. }
    rewrite live_app, Hone, (inv_wg _ Hinv). lia.
Qed.

Lemma Inv_foldl_launch (order : list string) s :
  Inv s → Inv (foldl launch s order).
Proof.
  revert s. induction order as [|k order IH]; intros s Hinv; [done|].
  simpl. by apply IH, Inv_launch.
Qed.

Lemma Inv_Start (order : list string) s : Inv s → Inv (Start order s).
Proof.
  intros Hinv. unfold Start. destruct (running (ac s)); [done|].
  apply Inv_foldl_launch. by destruct Hinv.
Qed.

Lemma Inv_Stop s : Inv s → Inv (Stop s).1.
Proof.
  intros [Hreg Hgo Hex Hwg Hsd Hh Hst]. split; simpl.
  - intros csr H. split_elem H. by apply Hreg.
  - intros i csr H. split_elem H. by eapply Hgo.
  - intros i t Hi Hpc. apply elem_of_app. left. by eapply Hex.
  - done.
  - intros j pc [Hj|[Hge Hj]]%lookup_app_Some.
    + apply sd_ok_app; [by apply Hsd|].
      intros e He. split_elem He. subst e. simpl.
      apply lookup_lt_Some in Hj. intros [=]. lia.
    + destruct (j - length (shutdowns s))%nat eqn:Hd; [|done].
      injection Hj as <-.
      assert (j = length (shutdowns s)) as -> by lia.
      simpl. rewrite !not_elem_of_app, !not_elem_of_cons.
      split_and!; try done; try apply not_elem_of_nil;
        intros He; apply (Hh _ (length (shutdowns s))) in He; simpl;
        lia || done.
  - intros e j H Hj. rewrite length_app. simpl. split_elem H.
    + apply (Hh _ _ H) in Hj. lia.
    + subst e. injection Hj as <-. lia.
  - intros j. rewrite length_app, elem_of_app, list_elem_of_singleton.
    simpl. intros Hj.
    destruct (decide (j = length (shutdowns s))) as [->|Hne]; [by right|].
    left. apply Hst. lia.
Qed.

Lemma deliver_loop_events (handler : HandlerFunc U) dely (u : U) :
  Forall (λ e, is_loop_event e = true) (deliver handler dely u).2.
Proof.
  unfold deliver, runWithRecovery.
  destruct (handler (Body dely) u) as [u' [[err|]|r stack]]; simpl;
    repeat constructor.
Qed.

Lemma run_step_inv (r : bool) csr (e : entry U) (pc pc' : LoopPc)
    (inp : LoopInput) (u u' : U) evs :
  run_step r csr e pc inp u = Some (pc', u', evs) →
  pc ≠ Exited ∧ pc' ≠ Exited ∧ Forall (λ e, is_loop_event e = true) evs.
Proof.
  destruct pc, inp; simpl; try done.
  - destruct r; intros [= <- <- <-]; by repeat constructor.
  - intros [= <- <- <-]. by repeat constructor.
  - intros [= <- <- <-]. by repeat constructor.
  - pose proof (deliver_loop_events (Handler e) dely u) as Hd.
    destruct (deliver (Handler e) dely u) as [u1 t1].
    intros [= <- <- <-]. by repeat constructor.
  - intros [= <- <- <-]. by repeat constructor.
  - destruct r; intros [= <- <- <-]; by repeat constructor.
Qed.

Lemma loop_event_plain (e : Event) :
  is_loop_event e = true →
  sd_of e = None ∧ (∀ csr, e ≠ EvAddFunc csr) ∧ (∀ i csr, e ≠ EvGo i csr)
  ∧ (∀ i, e ≠ EvExit i).
Proof. by destruct e. Qed.

(** A step of a loop goroutine: its program point and the counter of the
    wait group change together. *)
Lemma Inv_set_task s i t (pc : LoopPc) (wg : Z) (u : U) evs :
  Inv s → tasks s !! i = Some t → t_pc t ≠ Exited →
  (∀ e, e ∈ evs → sd_of e = None ∧ (∀ csr, e ≠ EvAddFunc csr)
                  ∧ (∀ i csr, e ≠ EvGo i csr)) →
  (pc = Exited → EvExit i ∈ evs ∧ wg = jobWaiter (ac s) - 1) →
  (pc ≠ Exited → wg = jobWaiter (ac s)) →
  Inv (set_task i t pc wg u evs s).
Proof.
  intros Hinv Hi Hpc Hevs Hex Hnex.
  destruct (live_insert (tasks s) i t pc Hi Hpc) as [Hge Hlive].
  eapply (Inv_frame s _ evs Hinv); simpl; try done.
  - intros e He. by apply Hevs.
  - intros csr He. destruct (Hevs _ He) as (_ & Hn & _).
    by destruct (Hn csr).
  - intros i' csr He. destruct (Hevs _ He) as (_ & _ & Hn).
    by destruct (Hn i' csr).
  - by rewrite length_insert.
  - intros i' t' Hi' Hpc'.
    destruct (decide (i = i')) as [<-|Hne].
    + rewrite list_lookup_insert_eq in Hi' by by eapply lookup_lt_Some.
      injection Hi' as <-. simpl in Hpc'. left. by apply Hex.
    + rewrite list_lookup_insert_ne in Hi' by done. right. eauto.
  - rewrite Hlive. pose proof (inv_wg _ Hinv) as Hwg.
    case_decide as Hd; [destruct (Hex Hd) as [_ ->]|rewrite (Hnex Hd)]; lia.
Qed.

Lemma Inv_loop s s' i (inp : LoopInput) :
  Inv s → sys_step (StepLoop i inp) s = Some s' → Inv s'.
Proof.
  intros Hinv. unfold sys_step.
  destruct (tasks s !! i) as [t|] eqn:Hi; [|done].
  assert (Hdone : t_pc t = AtDone → inp = Tick →
                  Inv (set_task i t Exited (jobWaiter (ac s) - 1) (user s)
                                [EvExit i] s)).
  { intros Hpc _. apply Inv_set_task; try done.
    - by rewrite Hpc.
    - intros e He. split_elem He. by subst.
    - intros _. split; [by left|done]. }
  assert (Hrun : ∀ pc' u' evs,
            run_step (running (ac s)) (t_csr t) (t_entry t) (t_pc t) inp
                     (user s) = Some (pc', u', evs) →
            Inv (set_task i t pc' (jobWaiter (ac s)) u' evs s)).
  { intros pc' u' evs (Hpc & Hpc' & Hevs)%run_step_inv.
    apply Inv_set_task; try done.
    intros e He. rewrite Forall_forall in Hevs.
    destruct (loop_event_plain e (Hevs e He)) as (? & ? & ? & ?). done. }
  destruct (t_pc t) eqn:Hpc, inp; cbn beta iota;
    try (intros [= <-]; by auto);
    destruct (run_step _ _ _ _ _ _) as [[[pc' u'] evs]|] eqn:Hr;
    try done; intros [= <-]; by apply Hrun.
Qed.

Lemma shutdown_step_events j (order ks : list string) (wg : Z)
    (pc pc' : SdPc) evs :
  shutdown_step j order ks wg pc = Some (pc', evs) →
  ∀ e, e ∈ evs → sd_of e = Some j ∧ e ≠ EvStop j
                 ∧ (∀ csr, e ≠ EvAddFunc csr) ∧ (∀ i csr, e ≠ EvGo i csr).
Proof.
  destruct pc as [|[|csr rest]| | | |]; simpl; try case_bool_decide;
    try done; intros [= <- <-] e He; split_elem He; by subst.
Qed.

(** A step of the shutdown goroutine [j] keeps its trace in step with its
    program point. *)
Lemma sd_ok_step s j (order : list string) (pc pc' : SdPc) evs :
  Inv s → shutdowns s !! j = Some pc →
  shutdown_step j order (keys s) (jobWaiter (ac s)) pc = Some (pc', evs) →
  sd_ok j pc' (trace s ++ evs).
Proof.
  intros Hinv Hj Hstep. pose proof (inv_sd _ Hinv j pc Hj) as Hok.
  destruct pc as [|[|c rest]| | | |]; simpl in Hstep, Hok;
    try case_bool_decide; try done; injection Hstep as <- <-; simpl;
    rewrite ?app_nil_r, ?not_elem_of_app, ?not_elem_of_cons.
  - (* the range starts *)
    destruct Hok as (? & ? & ?). split_and!; try done.
    intros csr Hb%before_elem_l. left.
    apply (inv_registry _ Hinv), elem_of_keys in Hb.
    match goal with Hp : order ≡ₚ _ |- _ => by rewrite Hp end.
  - (* the range is over *)
    destruct Hok as (? & ? & ? & Hr). split_and!; try done.
    intros csr Hb. destruct (Hr csr Hb) as [Hn|?]; [|done].
    by apply elem_of_nil in Hn.
  - (* one cancel *)
    destruct Hok as (? & ? & ? & Hr).
    split_and!; try done; try apply not_elem_of_nil.
    intros csr Hb%before_app_inv;
      [|by rewrite not_elem_of_cons; split; [|apply not_elem_of_nil]].
    rewrite elem_of_app, list_elem_of_singleton.
    destruct (Hr csr Hb) as [[->|?]%elem_of_cons|?]; auto.
  - (* Wait returns *)
    destruct Hok as (Hw & ? & ? & Hr).
    split_and!; try done; try apply not_elem_of_nil.
    + apply elem_of_app. right. by left.
    + split.
      * intros csr Hb%before_app_inv;
          [|by rewrite not_elem_of_cons; split; [|apply not_elem_of_nil]].
        apply before_app_intro; [by apply Hr|by left].
      * intros i csr Hb%before_snoc_inv; [|done].
        apply (inv_go _ Hinv) in Hb.
        apply lookup_lt_is_Some in Hb as [t Ht].
        assert (Hz : live (tasks s) = 0%nat).
        { pose proof (inv_wg _ Hinv). lia. }
        apply before_app_intro; [|by left].
        eapply (inv_exit _ Hinv); [done|]. by eapply live_zero.
  - (* Close *)
    destruct Hok as (Hw & Hwd & ? & ?).
    split_and!; try done; try apply not_elem_of_nil.
    + apply waited_app; [done|..];
        by rewrite not_elem_of_cons; split; [|apply not_elem_of_nil].
    + apply before_app_intro; [done|by left].
  - (* cancel() *)
    destruct Hok as (Hwd & Hb & ?). split_and!.
    + apply waited_app; [done|..];
        by rewrite not_elem_of_cons; split; [|apply not_elem_of_nil].
    + by apply before_app_l.
    + apply before_app_intro; [by eapply before_elem_r|by left].
Qed.

Lemma Inv_shutdown s s' j (order : list string) :
  Inv s → sys_step (StepShutdown j order) s = Some s' → Inv s'.
Proof.
  intros Hinv. unfold sys_step.
  destruct (shutdowns s !! j) as [pc|] eqn:Hj; [|done].
  destruct (shutdown_step _ _ _ _ _) as [[pc' evs]|] eqn:Hstep; [|done].
  intros [= <-].
  pose proof (shutdown_step_events _ _ _ _ _ _ _ Hstep) as Hevs.
  pose proof (sd_ok_step _ _ _ _ _ _ Hinv Hj Hstep) as Hown.
  destruct Hinv as [Hreg Hgo Hex Hwg Hsd Hh Hst]. split; simpl.
  - intros csr H. split_elem H; [by apply Hreg|].
    destruct (Hevs _ H) as (_ & _ & Hn & _). by destruct (Hn csr).
  - intros i csr H. split_elem H; [by eapply Hgo|].
    destruct (Hevs _ H) as (_ & _ & _ & Hn). by destruct (Hn i csr).
  - intros i t Hi Hpc. apply elem_of_app. left. by eapply Hex.
  - done.
  - intros j' pc'' Hj'.
    destruct (decide (j = j')) as [<-|Hne].
    + rewrite list_lookup_insert_eq in Hj' by by eapply lookup_lt_Some.
      by injection Hj' as <-.
    + rewrite list_lookup_insert_ne in Hj' by done.
      apply sd_ok_app; [by apply Hsd|].
      intros e He. destruct (Hevs _ He) as [-> _]. congruence.
  - intros e j' H Hj'. rewrite length_insert. split_elem H; [by eapply Hh|].
    destruct (Hevs _ H) as [Hs _]. rewrite Hs in Hj'. injection Hj' as <-.
    by eapply lookup_lt_Some.
  - intros j'. rewrite length_insert. intros Hj'.
    apply elem_of_app. left. by apply Hst.
Qed.

Lemma Inv_step s s' a : Inv s → sys_step a s = Some s' → Inv s'.
Proof.
  intros Hinv. destruct a as [queue consumer fn|order| |i inp|j order].
  - intros [= <-]. by apply Inv_AddFunc.
  - simpl. case_bool_decide; [|done]. intros [= <-]. by apply Inv_Start.
  - intros [= <-]. by apply Inv_Stop.
  - by apply Inv_loop.
  - by apply Inv_shutdown.
Qed.

Lemma Inv_exec (acts : list (Action U)) s s' :
  Inv s → exec acts s = Some s' → Inv s'.
Proof.
  revert s. induction acts as [|a acts IH]; intros s Hinv; simpl.
  - by intros [= <-].
  - destruct (sys_step a s) as [s1|] eqn:Hs; [|done].
    apply IH. by eapply Inv_step.
Qed.

Lemma Inv_reachable (u : U) (acts : list (Action U)) s :
  exec acts (initial u) = Some s → Inv s.
Proof. apply Inv_exec, Inv_initial. Qed.

(** ** Start *)

Lemma launch_entries s (k : string) :
  entries (ac (launch s k)) = entries (ac s).
Proof. unfold launch. by destruct (entries (ac s) !! k). Qed.

Lemma foldl_launch_entries (order : list string) s :
  entries (ac (foldl launch s order)) = entries (ac s).
Proof.
  revert s. induction order as [|k order IH]; intros s; [done|].
  simpl. by rewrite IH, launch_entries.
Qed.

(** The range of [Start] over bindings that are in the registry. *)
Lemma foldl_launch (order : list string) s :
  (∀ k, k ∈ order → is_Some (entries (ac s) !! k)) →
  ∃ new,
    foldl launch s order
    = mkSys (consumerSeq s)
            (mkAmqpxConsumer (entries (ac s)) (running (ac s))
               (jobWaiter (ac s) + Z.of_nat (length order)))
            (tasks s ++ new) (shutdowns s) (user s)
            (trace s ++ launch_events (length (tasks s)) order)
    ∧ Forall2 (λ k t, t_csr t = k ∧ t_pc t = AtFor
                      ∧ entries (ac s) !! k = Some (t_entry t)) order new.
Proof.
  revert s. induction order as [|k order IH]; intros s Hin.
  - exists []. simpl. rewrite !app_nil_r, Z.add_0_r.
    split; [by destruct s as [? []]|constructor].
  - destruct (Hin k) as [v Hv]; [by left|].
    destruct (IH (launch s k)) as (new & Heq & Hall).
    { intros k' Hk'. rewrite launch_entries. apply Hin. by right. }
    exists (mkTask k v AtFor :: new). split.
    + simpl foldl. rewrite Heq. unfold launch. rewrite Hv. simpl.
      rewrite length_app, <-!app_assoc. simpl.
      replace (length (tasks s) + 1)%nat with (S (length (tasks s))) by lia.
      replace (jobWaiter (ac s) + 1 + Z.of_nat (length order))
        with (jobWaiter (ac s) + Z.of_nat (S (length order))) by lia.
      done.
    + constructor; [done|]. by rewrite launch_entries in Hall.
Qed.

(** C6. [Start] on a running supervisor changes nothing. Otherwise it sets
    the running flag and, visiting the registry in some order, launches
    for each binding one loop goroutine at its loop head, for that
    binding's identity, queue and handler: as many as there are bindings,
    no identity twice; the counter of the wait group grows by that number,
    and in the trace each [Add(1)] comes right before its launch. *)
Theorem Start_launches_one_loop_per_binding (order : list string) s :
  order ≡ₚ keys s →
  (running (ac s) = true → Start order s = s)
  ∧ (running (ac s) = false →
     ∃ new,
       Start order s
       = mkSys (consumerSeq s)
               (mkAmqpxConsumer (entries (ac s)) true
                  (jobWaiter (ac s) + Z.of_nat (size (entries (ac s)))))
               (tasks s ++ new) (shutdowns s) (user s)
               (trace s ++ launch_events (length (tasks s)) order)
       ∧ length new = size (entries (ac s))
       ∧ NoDup (t_csr <$> new)
       ∧ (∀ k, is_Some (entries (ac s) !! k) ↔ k ∈ t_csr <$> new)
       ∧ Forall2 (λ k t, t_csr t = k ∧ t_pc t = AtFor
                         ∧ entries (ac s) !! k = Some (t_entry t))
                 order new).
Proof.
  intros Hperm. unfold Start. split; [by intros ->|]. intros ->.
  set (s0 := mkSys _ _ _ _ _ _).
  destruct (foldl_launch order s0) as (new & Heq & Hall).
  { intros k Hk. rewrite Hperm in Hk. by apply elem_of_keys in Hk. }
  assert (Hlen : length order = size (entries (ac s))).
  { rewrite Hperm. unfold keys. by rewrite length_fmap, length_map_to_list. }
  assert (Hcsr : t_csr <$> new = order).
  { clear -Hall. induction Hall as [|k t order new (Hk & _) _ IH]; [done|].
    by rewrite fmap_cons, Hk, IH. }
  exists new. rewrite Heq, Hcsr. unfold s0. cbn [consumerSeq ac entries
    running jobWaiter tasks shutdowns user trace]. rewrite Hlen.
  split_and!; try done.
  - by rewrite <-(Forall2_length _ _ _ Hall).
  - rewrite Hperm. apply NoDup_fst_map_to_list.
  - intros k. by rewrite Hperm, elem_of_keys.
Qed.

(** ** Stop *)

(** C3. [Stop] clears the running flag and returns at once: it only
    launches the shutdown goroutine, whose handle is new and not resolved,
    and performs no cancel, wait or close itself. In every run of the
    supervisor, when a handle [j] has resolved, then [Close] was called
    before that, [Wait] had returned before [Close], and by the time [Wait]
    returned every identity registered by the time of the [Stop] call had
    been cancelled and every loop goroutine launched by then had exited;
    [Wait] returns only when the counter of the wait group is zero. *)
Theorem Stop_handle_resolves_after_shutdown
    (u : U) (acts : list (Action U)) s :
  exec acts (initial u) = Some s →
  (running (ac (Stop s).1) = false
   ∧ (Stop s).2 = length (shutdowns s)
   ∧ shutdowns (Stop s).1 = shutdowns s ++ [SdRange]
   ∧ trace (Stop s).1 = trace s ++ [EvStop (Stop s).2]
   ∧ tasks (Stop s).1 = tasks s
   ∧ EvCtxDone (Stop s).2 ∉ trace (Stop s).1)
  ∧ (∀ j, EvCtxDone j ∈ trace s →
       before (trace s) (EvClose j) (EvCtxDone j)
       ∧ before (trace s) (EvWaitReturn j) (EvClose j)
       ∧ (∀ csr, before (trace s) (EvAddFunc csr) (EvStop j) →
                 before (trace s) (EvCancel j csr) (EvWaitReturn j))
       ∧ (∀ i csr, before (trace s) (EvGo i csr) (EvWaitReturn j) →
                   before (trace s) (EvExit i) (EvWaitReturn j)))
  ∧ (∀ j (order ks : list string) (wg : Z) pc' evs,
       shutdown_step j order ks wg SdWait = Some (pc', evs) →
       wg = 0 ∧ pc' = SdClose ∧ evs = [EvWaitReturn j]).
Proof.
  intros Hinv%Inv_reachable. split_and!; try done.
  - simpl. rewrite not_elem_of_app, not_elem_of_cons. split_and!; try done.
    + intros H. apply (inv_handles _ Hinv _ (length (shutdowns s))) in H;
        [lia|done].
    + apply not_elem_of_nil.
  - intros j Hdone.
    assert (Hlt : (j < length (shutdowns s))%nat).
    { by apply (inv_handles _ Hinv _ j) in Hdone. }
    apply lookup_lt_is_Some in Hlt as [pc Hpc].
    pose proof (inv_sd _ Hinv j pc Hpc) as Hok.
    destruct pc; simpl in Hok.
    + by destruct Hok as (? & ? & ?).
    + by destruct Hok as (? & ? & ? & ?).
    + by destruct Hok as (? & ? & ? & ?).
    + by destruct Hok as (? & ? & ? & ?).
    + by destruct Hok as (? & ? & ?).
    + by destruct Hok as ([? ?] & ? & ?).
  - intros j order ks wg pc' evs. simpl.
    case_bool_decide; [|done]. by intros [= <- <-].
Qed.

(** ** The registry after Start *)

Lemma sys_step_entries a s s' :
  sys_step a s = Some s' → is_CallAddFunc a = false →
  entries (ac s') = entries (ac s).
Proof.
  destruct a as [queue consumer fn|order| |i inp|j order]; simpl; try done.
  - case_bool_decide; [|done]. intros [= <-] _. unfold Start.
    destruct (running (ac s)); [done|]. by rewrite foldl_launch_entries.
  - by intros [= <-].
  - destruct (tasks s !! i) as [t|]; [|done].
    assert (Hset : ∀ pc wg u' evs,
              entries (ac (set_task i t pc wg u' evs s)) = entries (ac s))
      by done.
    destruct (t_pc t), inp;
      repeat case_match; try done; intros [= <-] _; apply Hset.
  - destruct (shutdowns s !! j) as [pc|]; [|done].
    destruct (shutdown_step _ _ _ _ _) as [[pc' evs]|]; [|done].
    by intros [= <-].
Qed.

(** C9 (as the code has it). No operation other than [AddFunc] changes
    the registry: [Start], [Stop], the steps of the loop goroutines and of
    the shutdown goroutines leave the mapping as it is, whether the
    supervisor has started or not. [AddFunc] does not look at the running
    flag: also on a running supervisor it inserts its binding. *)
Theorem registry_changed_only_by_AddFunc a s s' :
  sys_step a s = Some s' →
  (is_CallAddFunc a = false → entries (ac s') = entries (ac s))
  ∧ (∀ queue consumer fn, a = CallAddFunc queue consumer fn →
       entries (ac s')
       = <[consumer +:+ "-" +:+ FormatUint (AddUint64 (consumerSeq s) 1)
           := mkEntry queue fn]> (entries (ac s))
       ∧ running (ac s') = running (ac s)).
Proof.
  intros Hstep. split; [by apply sys_step_entries|].
  intros queue consumer fn ->. by injection Hstep as <-.
Qed.

(** ** Late registration *)





Lemma sys_step_entries_mono a s s' (csr : string) :
  sys_step a s = Some s' →
  is_Some (entries (ac s) !! csr) → is_Some (entries (ac s') !! csr).
Proof.
  intros Hs. destruct (is_CallAddFunc a) eqn:Ha.
  - destruct a; try done. injection Hs as <-. simpl. intros Hc.
    apply lookup_insert_is_Some.
    destruct (decide (consumer +:+ "-" +:+ FormatUint
                        (AddUint64 (consumerSeq s) 1) = csr)); auto.
  - by rewrite (sys_step_entries _ _ _ Hs Ha).
Qed.




End System.

(** ** The channel supervisor *)

Section Supervisor.
Context {T : Transport}.
Implicit Types (ad : Amqpx) (w : World) (t : list Op) (σ : World * list Op).

Lemma redial_run_returned (sels : list Selected) ad σ :
  redial_run sels (RdReturned, ad) σ = ((RdReturned, ad), σ).
Proof. induction sels as [|sel sels IH]; [done|]. simpl. apply IH. Qed.

Lemma redial_step_stop (pc : RedialPc) ad σ :
  redial_step SelStop (pc, ad) σ = ((RdReturned, ad), σ).
Proof. by destruct pc. Qed.

Lemma redial_run_app (sels1 sels2 : list Selected) (st : RedialPc * Amqpx) σ :
  redial_run (sels1 ++ sels2) st σ
  = let '(st', σ') := redial_run sels1 st σ in redial_run sels2 st' σ'.
Proof.
  revert st σ. induction sels1 as [|sel sels1 IH]; intros st σ; [done|].
  cbn [app redial_run]. unfold mbind, IO_bind.
  destruct (redial_step sel st σ) as [st1 σ1]. apply IH.
Qed.

(** C4. Channel acquisition, at construction and on every re-dial.
    - The connection is checked first: [Init] is called exactly when the
      connection is absent or closed, before anything else; if it fails,
      the call returns the error wrapped as a connection error, without
      touching the channel.
    - With the connection ready, the previous channel is closed exactly
      when there is one and it is still open, and [Connection.Channel()]
      is called after that; if it fails, the call returns the error
      wrapped as a channel-open error and keeps the old channel field;
      if it succeeds, the new channel replaces the old one.
    - [New] returns no supervisor and launches no re-dial goroutine when
      the acquisition fails, with the error of the acquisition; otherwise
      it returns the supervisor holding the channel and launches the
      goroutine last. *)
Theorem initChannel_acquisition ad w t :
  let dead := Connection_nil w || Connection_IsClosed w in
  let checked := if dead then Init w else (None, w) in
  let t1 := if dead then [OpInit] else [] in
  let closing :=
    match channel ad with
    | Some ch =>
        if Channel_IsClosed ch checked.2 then (checked.2, [])
        else ((Channel_Close ch checked.2).2, [OpChannelClose ch])
    | None => (checked.2, [])
    end in
  let opened := Connection_Channel closing.1 in
  (∀ e, checked.1 = Some e →
     initChannel ad (w, t)
     = ((ad, Some ("amqpd connection error: " +:+ e)), (checked.2, t ++ t1)))
  ∧ (∀ e, checked.1 = None → opened.1 = inr e →
       initChannel ad (w, t)
       = ((ad, Some ("open channel error: " +:+ e)),
          (opened.2, t ++ t1 ++ closing.2 ++ [OpConnectionChannel])))
  ∧ (∀ ch, checked.1 = None → opened.1 = inl ch →
       initChannel ad (w, t)
       = ((mkAmqpx (Some ch), None),
          (opened.2, t ++ t1 ++ closing.2 ++ [OpConnectionChannel])))
  ∧ (∀ r σ, New (w, t) = (r, σ) →
       match initChannel (mkAmqpx None) (w, t) with
       | ((_, Some e), σ') => r = (None, Some e) ∧ σ = σ'
       | ((ad', None), (w', t')) =>
           r = (Some ad', None) ∧ σ = (w', t' ++ [OpGoRedial])
       end).
Proof.
  intros dead checked t1 closing opened.
  assert (Hinit : initChannel ad (w, t)
    = match checked.1 with
      | Some e => ((ad, Some ("amqpd connection error: " +:+ e)),
                   (checked.2, t ++ t1))
      | None =>
          match opened.1 with
          | inr e => ((ad, Some ("open channel error: " +:+ e)),
                      (opened.2, t ++ t1 ++ closing.2 ++ [OpConnectionChannel]))
          | inl ch => ((mkAmqpx (Some ch), None),
                       (opened.2, t ++ t1 ++ closing.2 ++ [OpConnectionChannel]))
          end
      end).
  { unfold initChannel, mbind, IO_bind, mret, IO_ret, connection_dead,
      call_Init, channel_IsClosed, channel_Close, connection_Channel.
    unfold opened, closing, t1, checked. fold dead.
    destruct dead.
    - destruct (Init w) as [[e|] w1]; simpl; [done|].
      destruct (channel ad) as [ch|]; simpl.
      + destruct (Channel_IsClosed ch w1); simpl.
        * destruct (Connection_Channel w1) as [[ch'|e] w3]; simpl;
            by rewrite <-?app_assoc.
        * destruct (Channel_Close ch w1) as [ec w2]; simpl.
          destruct (Connection_Channel w2) as [[ch'|e] w3]; simpl;
            by rewrite <-?app_assoc.
      + destruct (Connection_Channel w1) as [[ch'|e] w3]; simpl;
          by rewrite <-?app_assoc.
    - simpl. destruct (channel ad) as [ch|]; simpl.
      + destruct (Channel_IsClosed ch w); simpl.
        * by destruct (Connection_Channel w) as [[ch'|e] w3].
        * destruct (Channel_Close ch w) as [ec w2]; simpl.
          destruct (Connection_Channel w2) as [[ch'|e] w3]; simpl;
            by rewrite <-?app_assoc.
      + by destruct (Connection_Channel w) as [[ch'|e] w3]. }
  split_and!.
  - intros e He. by rewrite Hinit, He.
  - intros e Hc Ho. by rewrite Hinit, Hc, Ho.
  - intros ch Hc Ho. by rewrite Hinit, Hc, Ho.
  - intros r σ. unfold New, mbind, IO_bind, mret, IO_ret, emit.
    destruct (initChannel (mkAmqpx None) (w, t)) as [[ad' [e|]] [w' t']];
      by intros [= <- <-].
Qed.

(** C8. The re-dial goroutine.
    - When a [select] finds the stop signal, at the outer wait or at the
      head of a retry, the goroutine returns: nothing is called, the
      channel is not re-acquired; and whatever is signalled afterwards,
      nothing more happens.
    - On a close notification it logs the cause and enters the retry loop.
    - A retry whose [select] does not find the stop signal logs, tries to
      re-acquire the channel; on failure it logs, sleeps 10 s and is at
      the head of the retry loop again, where the stop signal is checked
      again; on success it logs and is back in the outer wait. *)
Theorem redial_retries_until_stop ad σ :
  (∀ pc, redial_step SelStop (pc, ad) σ = ((RdReturned, ad), σ))
  ∧ (∀ sels1 sels2 pc,
       redial_run (sels1 ++ SelStop :: sels2) (pc, ad) σ
       = let '((_, ad'), σ') := redial_run sels1 (pc, ad) σ in
         ((RdReturned, ad'), σ'))
  ∧ (∀ closeErr,
       redial_step (SelClosed closeErr) (RdSelect, ad) σ
       = ((RdRetry, ad),
          (σ.1, σ.2 ++ [OpLog ("amqpd-redial: channel closing: "
                               +:+ closeErr)])))
  ∧ redial_step SelNone (RdSelect, ad) σ = ((RdSelect, ad), σ)
  ∧ (∀ sel, sel ≠ SelStop →
       redial_step sel (RdRetry, ad) σ
       = let '((ad', err), (w', t')) :=
           initChannel ad
             (σ.1, σ.2 ++ [OpLog "amqpd-redial: reconnecting..."]) in
         match err with
         | Some e =>
             ((RdRetry, ad'),
              (w', t' ++ [OpLog ("amqpd-redial: reconnect error: " +:+ e);
                          OpSleep 10000000000]))
         | None =>
             ((RdSelect, ad'),
              (w', t' ++ [OpLog "amqpd-redial: channel re-established"]))
         end).
Proof.
  destruct σ as [w t]. split_and!.
  - intros pc. apply redial_step_stop.
  - intros sels1 sels2 pc. rewrite redial_run_app.
    destruct (redial_run sels1 (pc, ad) (w, t)) as [[pc' ad'] σ'].
    cbn [redial_run]. unfold mbind, IO_bind.
    rewrite redial_step_stop. apply redial_run_returned.
  - done.
  - done.
  - intros sel Hsel. cbn [fst snd].
    assert (Hstep : redial_step sel (RdRetry, ad) (w, t)
                    = redial_step SelNone (RdRetry, ad) (w, t))
      by by destruct sel.
    rewrite Hstep. unfold redial_step, mbind, IO_bind, mret, IO_ret,
      printf, emit.
    destruct (initChannel ad _) as [[ad' [e|]] [w' t']]; simpl;
      by rewrite <-?app_assoc.
Qed.

End Supervisor.

(* ===================================================================== *)
(** * Part III. The properties at sample inputs *)
(* ===================================================================== *)

Lemma elem_of_trace (e : Event) (tr : list Event) :
  bool_decide (e ∈ tr) = true → e ∈ tr.
Proof. apply bool_decide_eq_true_1. Qed.

(** C1, counterexample: the handler panics on the delivery, and the
    delivery is acknowledged, not rejected. *)
Lemma panic_is_not_rejected :
  ¬ (∀ (handler : HandlerFunc unit) (dely : Delivery) (u u' : unit)
       (r : string) (stack : list byte),
       handler (Body dely) u = (u', Panics r stack) →
       EvReject (DeliveryTag dely) true ∈ (deliver handler dely u).2
       ∧ ∀ m, EvAck (DeliveryTag dely) m ∉ (deliver handler dely u).2).
Proof.
  intros Hclaim.
  destruct (Hclaim always_panics (mkDelivery 7 []) tt tt _ _ eq_refl)
    as [_ Hack].
  apply (Hack false). apply elem_of_trace. by vm_compute.
Qed.

Lemma panic_is_recovered_and_acknowledged_witness :
  always_panics (Body (mkDelivery 7 [])) tt
  = (tt, Panics "runtime error: index out of range" [])
  ∧ deliver always_panics (mkDelivery 7 []) tt
    = (tt, [EvPanicLog "runtime error: index out of range" [];
            EvAck 7 false]).
Proof.
  split; [reflexivity|].
  exact (proj1 (proj2 (proj2
    (panic_is_recovered_and_acknowledged always_panics (mkDelivery 7 [])
       tt tt "runtime error: index out of range" [] eq_refl)))).
Defined.

Lemma consume_one_disposition_per_delivery_witness :
  sample_deliveries !! 1%nat = Some (mkDelivery 2 ["a"%byte])
  ∧ (flaky ["a"%byte] 1%nat).2 = Returns (Some "busy")
  ∧ dispositions
      (consume "orders" "w1-1" flaky (ConsumeStream sample_deliveries) 0%nat).2
    !! 1%nat = Some (EvReject 2 true).
Proof.
  split; [reflexivity|]. split; [reflexivity|].
  destruct (consume_one_disposition_per_delivery "orders" "w1-1" flaky
              sample_deliveries 0%nat) as (_ & Hpos & _).
  destruct (Hpos 1%nat (mkDelivery 2 ["a"%byte]) eq_refl) as (Hrej & _).
  exact (Hrej "busy" eq_refl).
Defined.

Lemma Stop_handle_resolves_after_shutdown_witness :
  exec run_to_shutdown (initial tt) = Some stopped
  ∧ EvCtxDone 0 ∈ trace stopped
  ∧ before (trace stopped) (EvClose 0) (EvCtxDone 0)
  ∧ before (trace stopped) (EvWaitReturn 0) (EvClose 0).
Proof.
  assert (Hs : exec run_to_shutdown (initial tt) = Some stopped)
    by (vm_compute; reflexivity).
  assert (Hd : EvCtxDone 0 ∈ trace stopped)
    by (apply elem_of_trace; vm_compute; reflexivity).
  split; [exact Hs|]. split; [exact Hd|].
  destruct (Stop_handle_resolves_after_shutdown tt run_to_shutdown stopped Hs)
    as (_ & Hres & _).
  destruct (Hres 0%nat Hd) as (H1 & H2 & _). by split.
Defined.

Lemma toy_perm (l k : list string) : bool_decide (l ≡ₚ k) = true → l ≡ₚ k.
Proof. apply bool_decide_eq_true_1. Qed.

Lemma initChannel_acquisition_witness :
  (Init (Transport := ToyTransport) toy_start).1
  = Some "dial tcp 127.0.0.1:5672: connect: connection refused"
  ∧ (initChannel toy_new (toy_start, [])).1
    = (toy_new,
       Some "amqpd connection error: dial tcp 127.0.0.1:5672: connect: connection refused")
  ∧ (Connection_Channel (Transport := ToyTransport)
       (Channel_Close (Transport := ToyTransport) toy_ch toy_busy).2).1
    = inr "channel/connection is not open"
  ∧ initChannel toy_ad (toy_busy, [])
    = ((toy_ad,
        Some "open channel error: channel/connection is not open"),
       (mkToyWorld (Some true) [] [] 3 [],
        [OpChannelClose toy_ch; OpConnectionChannel])).
Proof.
  split; [reflexivity|]. split.
  - destruct (initChannel_acquisition toy_new toy_start []) as (Hconn & _).
    exact (f_equal fst (Hconn _ eq_refl)).
  - split; [reflexivity|].
    destruct (initChannel_acquisition toy_ad toy_busy []) as (_ & Hopen & _).
    exact (Hopen "channel/connection is not open" eq_refl eq_refl).
Defined.

Lemma AddFunc_identities_distinct_witness :
  Z.of_nat (length sample_registrations) < 2 ^ 64
  ∧ Forall (λ r, (r_on r < 2)%nat) sample_registrations
  ∧ (foldl register (fresh_process 2) sample_registrations).2
    = ["w-1"; "w-2"; "w-3"]
  ∧ NoDup (foldl register (fresh_process 2) sample_registrations).2.
Proof.
  assert (Hlen : Z.of_nat (length sample_registrations) < 2 ^ 64)
    by (vm_compute; reflexivity).
  assert (Hon : Forall (λ r, (r_on r < 2)%nat) sample_registrations)
    by (repeat constructor; simpl; lia).
  split; [exact Hlen|]. split; [exact Hon|]. split; [by vm_compute|].
  destruct (AddFunc_identities_distinct 2 sample_registrations Hlen Hon)
    as (_ & _ & Hnd & _).
  exact Hnd.
Defined.

Lemma Start_launches_one_loop_per_binding_witness :
  ["w2-2"; "w1-1"] ≡ₚ keys two_bindings
  ∧ running (ac two_bindings) = false
  ∧ ∃ new,
      tasks (Start ["w2-2"; "w1-1"] two_bindings) = new
      ∧ length new = 2%nat
      ∧ trace (Start ["w2-2"; "w1-1"] two_bindings)
        = [EvAddFunc "w1-1"; EvAddFunc "w2-2";
           EvWgAdd 1; EvGo 0 "w2-2"; EvWgAdd 1; EvGo 1 "w1-1"].
Proof.
  assert (Hperm : ["w2-2"; "w1-1"] ≡ₚ keys two_bindings)
    by (apply toy_perm; vm_compute; reflexivity).
  split; [exact Hperm|]. split; [reflexivity|].
  destruct (Start_launches_one_loop_per_binding ["w2-2"; "w1-1"]
              two_bindings Hperm) as [_ Hstart].
  destruct (Hstart eq_refl) as (new & Heq & Hlen & _).
  exists new. rewrite Heq. split; [reflexivity|]. split; [exact Hlen|].
  reflexivity.
Defined.

Lemma run_backoff_and_exit_witness :
  run_steps "w1-1" (mkEntry "orders" always_ok)
    [(true, Tick); (true, GotStream)] Exited tt
  = (Exited, tt, []).
Proof.
  destruct (run_backoff_and_exit "w1-1" (mkEntry "orders" always_ok) tt)
    as (_ & _ & _ & Hexit).
  apply Hexit. by right.
Defined.

Lemma redial_retries_until_stop_witness :
  SelNone ≠ SelStop
  ∧ redial_step SelNone (RdRetry, toy_new) (toy_start, [])
    = ((RdRetry, toy_new),
       (mkToyWorld None [true] [] 0 [],
        [OpLog "amqpd-redial: reconnecting..."; OpInit;
         OpLog "amqpd-redial: reconnect error: amqpd connection error: dial tcp 127.0.0.1:5672: connect: connection refused";
         OpSleep 10000000000])).
Proof.
  split; [discriminate|].
  destruct (redial_retries_until_stop toy_new (toy_start, [])) as (_ & _ & _ & _ & Hretry).
  exact (Hretry SelNone ltac:(discriminate)).
Defined.

(** C9, counterexample: on the started supervisor, [AddFunc] changes the
    registry. *)
Lemma registry_mutated_after_Start :
  ¬ (∀ (acts : list (Action unit)) (a : Action unit) (s s' : Sys unit),
       exec acts (initial tt) = Some s → running (ac s) = true →
       sys_step a s = Some s' → entries (ac s') = entries (ac s)).
Proof.
  intros Hclaim.
  assert (Hs : exec run_to_started (initial tt) = Some started)
    by (vm_compute; reflexivity).
  pose proof (Hclaim run_to_started (CallAddFunc "events" "w2" always_ok)
                started _ Hs eq_refl eq_refl) as Heq.
  apply (f_equal (λ m, Queue <$> m !! "w2-2")) in Heq.
  by vm_compute in Heq.
Qed.

Lemma registry_changed_only_by_AddFunc_witness :
  sys_step CallStop started = Some (Stop started).1
  ∧ is_CallAddFunc (CallStop : Action unit) = false
  ∧ entries (ac (Stop started).1) = entries (ac started).
Proof.
  split; [reflexivity|]. split; [reflexivity|].
  destruct (registry_changed_only_by_AddFunc CallStop started
              (Stop started).1 eq_refl) as [Hsame _].
  exact (Hsame eq_refl).
Defined.



(* ===================================================================== *)
(** * Part IV. The rest of the two files: definitions *)
(* ===================================================================== *)

(** ** The operations of [Amqpx] on its channel *)

(** A call of the client library on a channel, with its arguments. *)
Inductive ChannelCall : Type :=
  | ChCancel (consumer : string) (noWait : bool)
  | ChExchangeDeclare (name kind : string)
      (durable autoDelete internal noWait : bool)
  | ChPublish (exchange key : string) (mandatory immediate : bool)
      (contentType : string) (body : list byte)
  | ChQueueDeclare (name : string) (durable autoDelete exclusive noWait : bool)
  | ChQueueBind (name key exchange : string) (noWait : bool)
  | ChConsume (queue consumer : string)
      (autoAck exclusive noLocal noWait : bool).

(** Program points of a call of [Close]. *)
Inductive ClosePc : Type :=
  | ClSend           (* blocked in [ad.stop <- struct{}{}] *)
  | ClChannelClose   (* the send is done: at [ad.channel.Close()] *)
  | ClReturned
  | ClPanicked.      (* [ad.channel] was nil *)

#[global] Instance ClosePc_eq_decision : EqDecision ClosePc.
Proof. solve_decision. Defined.

#[global] Instance RedialPc_eq_decision : EqDecision RedialPc.
Proof. solve_decision. Defined.

Section OperationDefinitions.
Context {T : Transport}.

(** [ad.channel.m(...)]: the call goes to the channel the field holds at
    that moment; on a nil field the method call panics ([None]). *)
Definition on_channel (ad : Amqpx) (call : ChannelCall)
    : option (Channel * ChannelCall) :=
  match channel ad with
  | Some ch => Some (ch, call)
  | None => None
  end.

Definition Cancel (ad : Amqpx) (consumer : string) :=
  on_channel ad (ChCancel consumer false).
Definition ExchangeDeclare (ad : Amqpx) (name kind : string) :=
  on_channel ad (ChExchangeDeclare name kind true false false false).
Definition Publish (ad : Amqpx) (exchange key : string) (body : list byte) :=
  on_channel ad (ChPublish exchange key false false "text/plain" body).
Definition QueueDeclare (ad : Amqpx) (name : string) :=
  on_channel ad (ChQueueDeclare name true false false false).
Definition QueueBind (ad : Amqpx) (name key exchange : string) :=
  on_channel ad (ChQueueBind name key exchange false).
Definition Consume (ad : Amqpx) (queue consumer : string) :=
  on_channel ad (ChConsume queue consumer false false false false).

(** ** [Close] and the re-dial goroutine

    [stop] is an unbuffered channel: the send in [Close] completes together
    with a receive in a [select] of [redial]. A supervisor with its re-dial
    goroutine and the calls of [Close] in progress: *)
Record Sup : Type := mkSup {
  sup_ad : Amqpx;
  sup_redial : RedialPc;
  sup_closers : list ClosePc;
  sup_io : World * list Op
}.

(** The supervisor [New] returned: the goroutine is at its outer [select]. *)
Definition sup_new (ad : Amqpx) (σ : World * list Op) : Sup :=
  mkSup ad RdSelect [] σ.

Inductive SupAction : Type :=
  | SupCallClose               (* a caller enters [Close] *)
  | SupRedial (sel : Selected) (* the goroutine goes on without the stop signal *)
  | SupHandoff (k : nat)       (* the send of caller [k] meets a receive *)
  | SupChannelClose (k : nat). (* caller [k] calls [ad.channel.Close()] *)

(** A caller is blocked in the send. *)
Definition stop_pending (s : Sup) : bool :=
  bool_decide (ClSend ∈ sup_closers s).

Definition sup_step (a : SupAction) (s : Sup) : option Sup :=
  match a with
  | SupCallClose =>
      Some (mkSup (sup_ad s) (sup_redial s) (sup_closers s ++ [ClSend])
                  (sup_io s))
  | SupRedial sel =>
      match sel, sup_redial s with
      | SelStop, _ => None
      | _, RdRetry =>
          (* the inner [select] takes [default] only if no send is waiting *)
          if stop_pending s then None
          else
            let '((pc, ad), σ) :=
              redial_step sel (RdRetry, sup_ad s) (sup_io s) in
            Some (mkSup ad pc (sup_closers s) σ)
      | _, pc0 =>
          let '((pc, ad), σ) := redial_step sel (pc0, sup_ad s) (sup_io s) in
          Some (mkSup ad pc (sup_closers s) σ)
      end
  | SupHandoff k =>
      match sup_closers s !! k, sup_redial s with
      | Some ClSend, (RdSelect | RdRetry) =>
          let '((pc, ad), σ) :=
            redial_step SelStop (sup_redial s, sup_ad s) (sup_io s) in
          Some (mkSup ad pc (<[k := ClChannelClose]> (sup_closers s)) σ)
      | _, _ => None
      end
  | SupChannelClose k =>
      match sup_closers s !! k with
      | Some ClChannelClose =>
          match channel (sup_ad s) with
          | Some ch =>
              let '(_, σ) := channel_Close ch (sup_io s) in
              Some (mkSup (sup_ad s) (sup_redial s)
                          (<[k := ClReturned]> (sup_closers s)) σ)
          | None =>
              Some (mkSup (sup_ad s) (sup_redial s)
                          (<[k := ClPanicked]> (sup_closers s)) (sup_io s))
          end
      | _ => None
      end
  end.

Fixpoint sup_exec (acts : list SupAction) (s : Sup) : option Sup :=
  match acts with
  | [] => Some s
  | a :: acts' =>
      match sup_step a s with
      | Some s' => sup_exec acts' s'
      | None => None
      end
  end.

Definition is_SelStop (sel : Selected) : bool :=
  match sel with SelStop => true | _ => false end.

(** The calls of [initChannel] on the transport. *)
Definition is_transport_op (op : Op) : Prop :=
  op = OpInit ∨ (∃ ch, op = OpChannelClose ch) ∨ op = OpConnectionChannel.

(** The calls of [Close] that are past the send. *)
Definition past_send (cs : list ClosePc) : nat :=
  length (filter (λ c, c ≠ ClSend) cs).

(** The calls that re-acquire: [Init] and [Connection.Channel()]. *)
Definition is_reacquire (op : Op) : bool :=
  match op with
  | OpInit | OpConnectionChannel => true
  | _ => false
  end.

(** What holds of a supervisor with its goroutine and its callers. *)
Record SupInv (s : Sup) : Prop := {
  si_once : past_send (sup_closers s)
            = if decide (sup_redial s = RdReturned) then 1%nat else 0%nat;
  si_channel : is_Some (channel (sup_ad s));
  si_panic : ClPanicked ∉ sup_closers s
}.

End OperationDefinitions.

(** ** [NewAmqpxConsumer], from the call of [New] on *)
Section ConstructorDefinitions.
Context {T : Transport} {U : Type}.


End ConstructorDefinitions.

(** ** Further predicates on runs of the consumer supervisor *)
Section RunDefinitions.
Context {U : Type}.

Definition is_CallStart (a : Action U) : bool :=
  match a with CallStart _ => true | _ => false end.

(** The registry holds identities numbered up to the counter. *)
Definition numbered (s : Sys U) : Prop :=
  0 ≤ consumerSeq s
  ∧ ∀ k, is_Some (entries (ac s) !! k) →
      ∃ (label : string) (n : Z),
        k = label +:+ "-" +:+ FormatUint n ∧ 1 ≤ n ≤ consumerSeq s.

(** The calls of [AddFunc] among the actions. *)
Definition registrations (acts : list (Action U)) : nat :=
  length (filter (λ a, is_CallAddFunc a = true) acts).

(** Where a step takes a loop goroutine: it depends on the running flag, on
    where the goroutine is and on what its stream gives, on nothing else. *)
Definition next_pc (running : bool) (pc : LoopPc) (inp : LoopInput)
    : option LoopPc :=
  match pc, inp with
  | AtFor, Tick => Some (if running then AtConsume else AtDone)
  | AtConsume, GotErr _ => Some AtFor
  | AtConsume, GotStream => Some AtRange
  | AtRange, GotDelivery _ => Some AtRange
  | AtRange, StreamEnd => Some AtRunningCheck
  | AtRunningCheck, Tick => Some (if running then AtFor else AtDone)
  | AtDone, Tick => Some Exited
  | _, _ => None
  end.

(** The identities the shutdown goroutine [j] has cancelled, in order. *)
Definition cancels (j : nat) (tr : list Event) : list string :=
  omap (λ e, match e with
             | EvCancel j' csr => if decide (j' = j) then Some csr else None
             | _ => None
             end) tr.

(** What the goroutine [j] is about to cancel with its next step. *)
Definition next_cancel (s : Sys U) (j : nat) : list string :=
  match shutdowns s !! j with
  | Some (SdCancel (c :: _)) => [c]
  | _ => []
  end.

(** The cancels of each shutdown goroutine: no identity twice, only
    identities of the registry, also those it has still to cancel. *)
Definition cancel_ok (s : Sys U) (j : nat) (pc : SdPc) : Prop :=
  match pc with
  | SdRange => cancels j (trace s) = []
  | SdCancel rest =>
      NoDup (cancels j (trace s) ++ rest)
      ∧ ∀ c, c ∈ rest → is_Some (entries (ac s) !! c)
  | _ => True
  end.

Record CancelInv (s : Sys U) : Prop := {
  ci_nodup : ∀ j, NoDup (cancels j (trace s));
  ci_registry : ∀ j c,
    c ∈ cancels j (trace s) → is_Some (entries (ac s) !! c);
  ci_pc : ∀ j pc, shutdowns s !! j = Some pc → cancel_ok s j pc
}.

End RunDefinitions.

(** A loop may call [Consume] only when [armed]: at the start, and after a
    sleep of 15 s. *)
Fixpoint spaced (armed : bool) (tr : list Event) : bool :=
  match tr with
  | [] => true
  | EvConsume _ _ :: tr' => armed && spaced false tr'
  | EvSleep d :: tr' => bool_decide (d = 15000000000) && spaced true tr'
  | _ :: tr' => spaced armed tr'
  end.

(** Whether a loop at [pc] may call [Consume] without sleeping first. *)
Definition armed_at (pc : LoopPc) : bool :=
  match pc with
  | AtFor | AtConsume => true
  | _ => false
  end.

(** ** Further sample inputs *)

(** The late registration and the run up to the return of [Wait], from the
    start. *)
Definition run_late_from_start : list (Action unit) :=
  run_to_started ++ CallAddFunc "events" "w2" always_ok :: run_late_stop.

(** Two bindings, started: two loop goroutines at their loop head. *)
Definition two_started : Sys unit := Start ["w2-2"; "w1-1"] two_bindings.

Definition two_started_first : Sys unit :=
  default two_started (sys_step (StepLoop 0 Tick) two_started).

Definition two_started_second : Sys unit :=
  default two_started (sys_step (StepLoop 1 Tick) two_started).

(** One binding: the loop has left and the shutdown goroutine is at
    [Wait]. *)
Definition run_to_drained : list (Action unit) :=
  [CallAddFunc "orders" "w1" always_ok; CallStart ["w1-1"];
   StepLoop 0 Tick; StepLoop 0 GotStream;
   StepLoop 0 (GotDelivery (mkDelivery 1 []));
   CallStop;
   StepShutdown 0 ["w1-1"]; StepShutdown 0 []; StepShutdown 0 [];
   StepLoop 0 StreamEnd; StepLoop 0 Tick; StepLoop 0 Tick].

Definition drained : Sys unit :=
  default (initial tt) (exec run_to_drained (initial tt)).

Definition wait_returned : Sys unit :=
  default drained (sys_step (StepShutdown 0 []) drained).

(** After [Wait]: the goroutine closes, a binding is registered, [Stop] is
    called once more. *)
Definition run_after_wait : list (Action unit) :=
  [StepShutdown 0 []; CallAddFunc "events" "w2" always_ok; CallStop].

Definition after_wait : Sys unit :=
  default wait_returned (exec run_after_wait wait_returned).

(** A loop whose first [Consume] fails and whose second gives a stream. *)
Definition failing_then_stream : list (bool * LoopInput) :=
  [(true, Tick); (true, GotErr "channel/connection is not open");
   (true, Tick); (true, GotStream)].

(** No connection yet; dialling and opening a channel succeed. *)
Definition toy_fresh : ToyWorld := mkToyWorld None [] [] 0 [].

Definition toy_first_ch : @Channel ToyTransport := 0%nat.
Definition toy_first : @Amqpx ToyTransport := mkAmqpx (Some toy_first_ch).

Definition toy_after_New : @World ToyTransport * list (@Op ToyTransport) :=
  (mkToyWorld (Some true) [] [] 1 [0%nat],
   [OpInit; OpConnectionChannel; OpGoRedial]).

(** Two callers enter [Close]; the second hands its stop signal over and
    closes the channel. *)
Definition run_two_closes : list SupAction :=
  [SupCallClose; SupCallClose; SupHandoff 1; SupChannelClose 1].

Definition two_closes : @Sup ToyTransport :=
  default (sup_new toy_first toy_after_New)
    (sup_exec run_two_closes (sup_new toy_first toy_after_New)).

(** Afterwards a third caller enters and the channel reports a close. *)
Definition run_after_close : list SupAction :=
  [SupCallClose; SupRedial (SelClosed "connection reset")].

Definition after_close : @Sup ToyTransport :=
  default two_closes (sup_exec run_after_close two_closes).

(* ===================================================================== *)
(** * Part V. The rest of the two files: properties *)
(* ===================================================================== *)

(** ** Streams *)

Section Streams.
Context {U : Type}.
Implicit Types (handler : HandlerFunc U) (u : U) (dely : Delivery).

Lemma range_deliveries_app handler (ds1 ds2 : list Delivery) u :
  range_deliveries handler (ds1 ++ ds2) u
  = ((range_deliveries handler ds2 (range_deliveries handler ds1 u).1).1,
     (range_deliveries handler ds1 u).2
     ++ (range_deliveries handler ds2 (range_deliveries handler ds1 u).1).2).
Proof.
  revert u. induction ds1 as [|d ds1 IH]; intros u.
  - simpl. by destruct (range_deliveries handler ds2 u).
  - rewrite <-app_comm_cons, !range_deliveries_cons, IH. cbn [fst snd].
    by rewrite app_assoc.
Qed.

Lemma deliver_state handler dely u :
  (deliver handler dely u).1 = (handler (Body dely) u).1.
Proof.
  unfold deliver, runWithRecovery.
  by destruct (handler (Body dely) u) as [u' [[e|]|r stack]].
Qed.

(** X1. [consume] works through a stream delivery by delivery: the handler
    is applied once to each body, in stream order, each time in the state
    the previous call left, whether the calls return nil, fail or panic; and
    a stream that comes in two parts is handled as the first part followed by
    the second. When [Consume] itself fails, the handler is not called and
    nothing is disposed of. *)
Theorem consume_handles_each_delivery_in_order
    (queue consumer : string) handler (ds1 ds2 : list Delivery) u :
  (consume queue consumer handler (ConsumeStream (ds1 ++ ds2)) u).1.1
  = foldl (λ u dely, (handler (Body dely) u).1) u (ds1 ++ ds2)
  ∧ (consume queue consumer handler (ConsumeStream (ds1 ++ ds2)) u).2
    = (consume queue consumer handler (ConsumeStream ds1) u).2
      ++ (range_deliveries handler ds2
            (consume queue consumer handler (ConsumeStream ds1) u).1.1).2
  ∧ (∀ err,
       (consume queue consumer handler (ConsumeErr err) u).1.1 = u
       ∧ dispositions (consume queue consumer handler (ConsumeErr err) u).2
         = []).
Proof.
  assert (Hc : ∀ ds, consume queue consumer handler (ConsumeStream ds) u
                     = ((range_deliveries handler ds u).1, None,
                        EvConsume queue consumer
                        :: (range_deliveries handler ds u).2)).
  { intros ds. unfold consume. by destruct (range_deliveries handler ds u). }
  assert (Hfold : ∀ ds u0, (range_deliveries handler ds u0).1
                           = foldl (λ u dely, (handler (Body dely) u).1) u0 ds).
  { induction ds as [|d ds IH]; intros u0; [done|].
    rewrite range_deliveries_cons. cbn [fst foldl].
    by rewrite IH, deliver_state. }
  rewrite !Hc. cbn [fst snd]. split_and!.
  - apply Hfold.
  - by rewrite range_deliveries_app.
  - done.
Qed.

End Streams.

(** ** The sequence number beyond 2^64 *)

Section Wrap.
Context {U : Type}.
Implicit Types (r : Registration U) (regs : list (Registration U)).

Lemma register_wraps (n : nat) regs :
  Forall (λ r, (r_on r < n)%nat) regs →
  let p := foldl register (fresh_process n) regs in
  p.1.1 = Z.of_nat (length regs) mod 2 ^ 64
  ∧ length p.1.2 = n
  ∧ length p.2 = length regs
  ∧ ∀ (i : nat) r, regs !! i = Some r →
      p.2 !! i = Some (r_consumer r +:+ "-"
                       +:+ FormatUint ((Z.of_nat i + 1) mod 2 ^ 64)).
Proof.
  induction regs as [|r regs IH] using rev_ind; intros Hon.
  - simpl. split_and!; try done. apply length_replicate.
  - apply Forall_app in Hon as [Hon Hr]. apply Forall_cons in Hr as [Hr _].
    destruct (IH Hon) as (Hseq & Hcons & Hlen & Hiss). clear IH.
    rewrite foldl_snoc.
    destruct (foldl register (fresh_process n) regs) as [[seq acs] issued].
    simpl in Hseq, Hcons, Hlen, Hiss. unfold register.
    assert (Hac : is_Some (acs !! r_on r)) by (apply lookup_lt_is_Some; lia).
    destruct Hac as [ac ->]. unfold AddFunc. cbn [fst snd].
    assert (Hn : AddUint64 seq 1 = (Z.of_nat (length regs) + 1) mod 2 ^ 64).
    { unfold AddUint64. rewrite Hseq. by rewrite Zplus_mod_idemp_l. }
    rewrite Hn. split_and!.
    + rewrite length_app. simpl. f_equal. lia.
    + by rewrite length_insert.
    + rewrite !length_app. simpl. lia.
    + intros i r' [[_ Hr']|[-> <-]]%lookup_snoc_Some.
      * rewrite lookup_app_l by (rewrite Hlen; by eapply lookup_lt_Some).
        by apply Hiss.
      * rewrite lookup_app_r by lia. by rewrite Hlen, Nat.sub_diag.
Qed.

(** X2. The sequence number is a [uint64]: whatever the number of
    registrations made in a process, the counter holds their number modulo
    2^64 and the [i]-th call (from 0) gets the suffix [(i+1) mod 2^64]; so
    two calls with the same label that are 2^64 calls apart get the same
    identity. *)
Theorem AddFunc_sequence_wraps (n : nat) regs :
  Forall (λ r, (r_on r < n)%nat) regs →
  let p := foldl register (fresh_process n) regs in
  p.1.1 = Z.of_nat (length regs) mod 2 ^ 64
  ∧ (∀ (i : nat) r, regs !! i = Some r →
       p.2 !! i = Some (r_consumer r +:+ "-"
                        +:+ FormatUint ((Z.of_nat i + 1) mod 2 ^ 64)))
  ∧ (∀ (i j : nat) r r', regs !! i = Some r → regs !! j = Some r' →
       r_consumer r = r_consumer r' →
       Z.of_nat j = Z.of_nat i + 2 ^ 64 →
       p.2 !! i = p.2 !! j).
Proof.
  intros Hon p. destruct (register_wraps n regs Hon) as (Hseq & _ & _ & Hiss).
  split_and!; [done|done|].
  intros i j r r' Hi Hj Hlabel Hij. fold p in Hiss.
  rewrite (Hiss i r Hi), (Hiss j r' Hj), Hlabel, Hij. do 3 f_equal.
  replace (Z.of_nat i + 2 ^ 64 + 1) with (Z.of_nat i + 1 + 1 * 2 ^ 64) by lia.
  by rewrite Z_mod_plus_full.
Qed.

End Wrap.

Lemma AddFunc_sequence_wraps_witness :
  Forall (λ r : Registration unit, (r_on r < 2)%nat) sample_registrations
  ∧ (foldl register (fresh_process 2) sample_registrations).1.1 = 3.
Proof.
  assert (Hon : Forall (λ r : Registration unit, (r_on r < 2)%nat)
                  sample_registrations)
    by (repeat constructor; simpl; lia).
  split; [exact Hon|].
  destruct (AddFunc_sequence_wraps 2 sample_registrations Hon) as (Hseq & _).
  exact Hseq.
Defined.

(** ** Runs of the consumer supervisor *)

Section Runs.
Context {U : Type}.
Implicit Types (s : Sys U) (a : Action U) (acts : list (Action U))
  (tr evs : list Event) (i j : nat) (t : Task U).

Lemma foldl_launch_frame (order : list string) s :
  consumerSeq (foldl launch s order) = consumerSeq s
  ∧ shutdowns (foldl launch s order) = shutdowns s
  ∧ running (ac (foldl launch s order)) = running (ac s)
  ∧ user (foldl launch s order) = user s
  ∧ ∃ new, tasks (foldl launch s order) = tasks s ++ new.
Proof.
  revert s. induction order as [|k order IH]; intros s; simpl.
  - split_and!; try done. exists []. by rewrite app_nil_r.
  - destruct (IH (launch s k)) as (-> & -> & -> & -> & new & ->).
    unfold launch. destruct (entries (ac s) !! k) as [v|]; simpl.
    + split_and!; try done. eexists. by rewrite <-app_assoc.
    + split_and!; try done. by eexists.
Qed.

(** What a step does to the counter of identities and to the number of
    shutdown goroutines. *)
Lemma sys_step_counters a s s' :
  sys_step a s = Some s' →
  consumerSeq s'
  = (if is_CallAddFunc a then AddUint64 (consumerSeq s) 1 else consumerSeq s)
  ∧ length (shutdowns s')
    = (length (shutdowns s) + if is_CallStop a then 1 else 0)%nat.
Proof.
  destruct a as [queue consumer fn|order| |i inp|j order]; unfold sys_step.
  - intros [= <-]. simpl. split; [done|lia].
  - case_bool_decide; [|done]. intros [= <-]. unfold Start.
    destruct (running (ac s)); [simpl; split; [done|lia]|].
    match goal with
    | |- context [foldl launch ?s0 order] =>
        destruct (foldl_launch_frame order s0) as (-> & -> & _)
    end.
    simpl. split; [done|lia].
  - intros [= <-]. simpl. rewrite length_app. simpl. split; [done|lia].
  - destruct (tasks s !! i) as [t|]; [|done].
    assert (Hset : ∀ pc wg u' evs,
              consumerSeq (set_task i t pc wg u' evs s) = consumerSeq s
              ∧ length (shutdowns (set_task i t pc wg u' evs s))
                = (length (shutdowns s) + 0)%nat)
      by (intros; simpl; split; [done|lia]).
    destruct (t_pc t), inp; repeat case_match; try done;
      intros [= <-]; apply Hset.
  - destruct (shutdowns s !! j) as [pc|]; [|done].
    destruct (shutdown_step _ _ _ _ _) as [[pc' evs]|]; [|done].
    intros [= <-]. simpl. rewrite length_insert. split; [done|lia].
Qed.

Lemma numbered_step a s s' :
  numbered s → sys_step a s = Some s' →
  consumerSeq s + (if is_CallAddFunc a then 1 else 0) < 2 ^ 64 →
  numbered s'
  ∧ consumerSeq s' = consumerSeq s + (if is_CallAddFunc a then 1 else 0)
  ∧ ∀ k e, entries (ac s) !! k = Some e → entries (ac s') !! k = Some e.
Proof.
  intros [Hpos Hnum] Hs Hb.
  destruct (sys_step_counters _ _ _ Hs) as [Hseq _].
  destruct (is_CallAddFunc a) eqn:Ha.
  - destruct a as [queue consumer fn| | | |]; try done.
    injection Hs as <-. clear Hseq.
    assert (Hw : AddUint64 (consumerSeq s) 1 = consumerSeq s + 1)
      by (apply AddUint64_no_wrap; lia).
    split_and!; [split|..]; simpl; rewrite ?Hw; [| |done|].
    + lia.
    + intros k [Heq|[_ Hk]]%lookup_insert_is_Some.
      * exists consumer, (consumerSeq s + 1). split; [by rewrite <-Heq|lia].
      * destruct (Hnum k Hk) as (label & n & -> & Hn).
        exists label, n. split; [done|lia].
    + intros k e Hk. rewrite lookup_insert_ne; [done|].
      intros Heq. destruct (Hnum k) as (label & n & -> & Hn); [by eexists|].
      apply identity_number in Heq; lia.
  - rewrite Z.add_0_r in *.
    pose proof (sys_step_entries _ _ _ Hs Ha) as He.
    split_and!; [split; [lia|]|done|by rewrite He].
    rewrite He, Hseq. done.
Qed.

Lemma numbered_exec acts s s' :
  numbered s → exec acts s = Some s' →
  consumerSeq s + Z.of_nat (registrations acts) < 2 ^ 64 →
  numbered s'
  ∧ consumerSeq s' = consumerSeq s + Z.of_nat (registrations acts)
  ∧ ∀ k e, entries (ac s) !! k = Some e → entries (ac s') !! k = Some e.
Proof.
  revert s. induction acts as [|a acts IH]; intros s Hnum; simpl.
  - intros [= <-] _. unfold registrations. simpl. split_and!; [done|lia|done].
  - destruct (sys_step a s) as [s1|] eqn:Hs; [|done]. intros Hex Hb.
    assert (Hcount : Z.of_nat (registrations (a :: acts))
                     = (if is_CallAddFunc a then 1 else 0)
                       + Z.of_nat (registrations acts)).
    { unfold registrations. destruct (is_CallAddFunc a) eqn:Ha.
      - rewrite filter_cons_True by done. simpl. lia.
      - rewrite filter_cons_False by (by rewrite Ha). lia. }
    rewrite Hcount in Hb |- *.
    destruct (numbered_step a s s1 Hnum Hs) as (Hnum1 & Hseq1 & Hkeep1).
    { destruct (is_CallAddFunc a); lia. }
    destruct (IH s1 Hnum1 Hex) as (Hnum2 & Hseq2 & Hkeep2); [lia|].
    split_and!; [done|lia|auto].
Qed.

(** X3. In a run of the supervisor with fewer than 2^64 registrations, a
    binding that is in the registry stays there under the same identity
    with the same queue and handler, whatever is called afterwards
    ([AddFunc], [Start], [Stop]) and whatever the goroutines do; and the
    counter of identities holds the number of registrations made. *)
Theorem bindings_are_kept (u : U) (acts1 acts2 : list (Action U)) s1 s2 :
  exec acts1 (initial u) = Some s1 →
  exec acts2 s1 = Some s2 →
  Z.of_nat (registrations (acts1 ++ acts2)) < 2 ^ 64 →
  consumerSeq s2 = Z.of_nat (registrations (acts1 ++ acts2))
  ∧ ∀ k e, entries (ac s1) !! k = Some e → entries (ac s2) !! k = Some e.
Proof.
  intros H1 H2 Hb.
  assert (Happ : registrations (acts1 ++ acts2)
                 = (registrations acts1 + registrations acts2)%nat).
  { unfold registrations. by rewrite filter_app, length_app. }
  rewrite Happ in Hb |- *.
  assert (Hinit : numbered (initial u)).
  { split; [done|]. intros k [e He]. simpl in He.
    by rewrite lookup_empty in He. }
  destruct (numbered_exec acts1 _ _ Hinit H1) as (Hn1 & Hs1 & _);
    [simpl; lia|].
  destruct (numbered_exec acts2 _ _ Hn1 H2) as (_ & Hs2 & Hkeep); [simpl in *; lia|].
  split; [simpl in *; lia|done].
Qed.

(** X4. [Start] on a supervisor that [Start] has just started changes
    nothing, whatever the orders of the two ranges. [Start] after [Stop]
    starts again: the flag is set again, every loop goroutine of before is
    still there as it was, and one more goroutine per binding is added, so
    the loops not yet exited are those of before and as many again as there
    are bindings. *)
Theorem Start_again (order1 order2 : list string) s :
  Start order2 (Start order1 s) = Start order1 s
  ∧ (order1 ≡ₚ keys s →
     ∃ new,
       tasks (Start order1 (Stop s).1) = tasks s ++ new
       ∧ running (ac (Start order1 (Stop s).1)) = true
       ∧ length new = size (entries (ac s))
       ∧ live (tasks (Start order1 (Stop s).1))
         = (live (tasks s) + size (entries (ac s)))%nat).
Proof.
  split.
  - assert (Hrun : running (ac (Start order1 s)) = true).
    { unfold Start. destruct (running (ac s)) eqn:Hr; [done|].
      match goal with
      | |- context [foldl launch ?s0 order1] =>
          by destruct (foldl_launch_frame order1 s0) as (_ & _ & -> & _)
      end. }
    unfold Start at 1. by rewrite Hrun.
  - intros Hperm. unfold Start. cbn [Stop fst ac running].
    match goal with
    | |- context [foldl launch ?s0 order1] =>
        destruct (foldl_launch order1 s0) as (new & -> & Hall)
    end.
    { intros k Hk. rewrite Hperm in Hk. by apply elem_of_keys in Hk. }
    exists new. cbn [tasks ac running].
    assert (Hlen : length new = size (entries (ac s))).
    { rewrite <-(Forall2_length _ _ _ Hall), Hperm. unfold keys.
      by rewrite length_fmap, length_map_to_list. }
    split_and!; try done.
    rewrite live_app. f_equal. rewrite <-Hlen. unfold live.
    clear -Hall. induction Hall as [|k t o new (_ & Hpc & _) _ IH]; [done|].
    rewrite filter_cons_True by (by rewrite Hpc). simpl. by rewrite IH.
Qed.

(** X5. In every run the counter of the wait group is the number of loop
    goroutines that have not yet run their deferred [Done]: it is never
    negative, and the [Wait] of a shutdown goroutine can return exactly when
    every loop goroutine launched so far has exited. *)
Theorem jobWaiter_counts_running_loops (u : U) acts s :
  exec acts (initial u) = Some s →
  jobWaiter (ac s) = Z.of_nat (live (tasks s))
  ∧ 0 ≤ jobWaiter (ac s)
  ∧ ∀ j order, shutdowns s !! j = Some SdWait →
      (is_Some (sys_step (StepShutdown j order) s)
       ↔ ∀ t, t ∈ tasks s → t_pc t = Exited).
Proof.
  intros Hinv%Inv_reachable. pose proof (inv_wg _ Hinv) as Hwg.
  split_and!; [done|lia|].
  intros j order Hj. unfold sys_step. rewrite Hj. simpl.
  case_bool_decide as Hz; split.
  - intros _ t [i Hi]%list_elem_of_lookup_1.
    apply (live_zero (tasks s) i); [lia|done].
  - by eexists.
  - by intros [? ?].
  - intros Hall. destruct Hz. rewrite Hwg. unfold live.
    rewrite filter_none; [done|]. intros t Ht Hne. by apply Hne, Hall.
Qed.

(** X6. Every call of [Stop] launches a shutdown goroutine of its own,
    whether the supervisor was running or not: in every run there are as
    many of them as calls of [Stop], and the handle a call returns is the
    number of calls made before it. *)
Theorem Stop_launches_every_time (u : U) acts s :
  exec acts (initial u) = Some s →
  length (shutdowns s) = length (filter (λ a, is_CallStop a = true) acts)
  ∧ (Stop s).2 = length (filter (λ a, is_CallStop a = true) acts)
  ∧ shutdowns (Stop (Stop s).1).1 = shutdowns s ++ [SdRange; SdRange].
Proof.
  assert (Hgen : ∀ acts s0 s,
            exec acts s0 = Some s →
            length (shutdowns s)
            = (length (shutdowns s0)
               + length (filter (λ a, is_CallStop a = true) acts))%nat).
  { clear. induction acts as [|a acts IH]; intros s0 s; simpl.
    - intros [= <-]. lia.
    - destruct (sys_step a s0) as [s1|] eqn:Hs; [|done]. intros Hex.
      rewrite (IH _ _ Hex).
      destruct (sys_step_counters _ _ _ Hs) as [_ ->].
      destruct (is_CallStop a) eqn:Ha.
      + rewrite filter_cons_True by done. simpl. lia.
      + rewrite filter_cons_False by (by rewrite Ha). lia. }
  intros Hex. pose proof (Hgen _ _ _ Hex) as Hlen. simpl in Hlen.
  split_and!; [done|done|].
  simpl. by rewrite <-app_assoc.
Qed.

(** A step of the loop goroutine [i]: only its own program point changes,
    to [next_pc]; the flag, the registry and the other goroutines stay. *)
Lemma step_loop_shape s s' i (inp : LoopInput) :
  sys_step (StepLoop i inp) s = Some s' →
  ∃ t pc' wg (u' : U) evs,
    tasks s !! i = Some t
    ∧ next_pc (running (ac s)) (t_pc t) inp = Some pc'
    ∧ s' = set_task i t pc' wg u' evs s
    ∧ Forall (λ e, sd_of e = None) evs.
Proof.
  unfold sys_step. destruct (tasks s !! i) as [t|] eqn:Hi; [|done].
  assert (Hrun : ∀ pc' u' evs,
            run_step (running (ac s)) (t_csr t) (t_entry t) (t_pc t) inp
                     (user s) = Some (pc', u', evs) →
            next_pc (running (ac s)) (t_pc t) inp = Some pc').
  { intros pc' u' evs. destruct (t_pc t), inp; simpl; try done;
      repeat case_match; by intros [= <- _ _]. }
  assert (Hclose : ∀ pc' u' evs,
            run_step (running (ac s)) (t_csr t) (t_entry t) (t_pc t) inp
                     (user s) = Some (pc', u', evs) →
            ∃ t0 pc0 wg (u0 : U) evs0,
              Some t = Some t0
              ∧ next_pc (running (ac s)) (t_pc t0) inp = Some pc0
              ∧ set_task i t pc' (jobWaiter (ac s)) u' evs s
                = set_task i t0 pc0 wg u0 evs0 s
              ∧ Forall (λ e, sd_of e = None) evs0).
  { intros pc' u' evs Hr. exists t, pc', (jobWaiter (ac s)), u', evs.
    split_and!; [done|by eapply Hrun|done|].
    apply run_step_inv in Hr as (_ & _ & Hevs).
    eapply Forall_impl; [exact Hevs|]. intros e He.
    by destruct (loop_event_plain e He). }
  destruct (t_pc t) eqn:Hpc, inp; cbn beta iota;
    try (intros [= <-];
         exists t, Exited, (jobWaiter (ac s) - 1), (user s), [EvExit i];
         rewrite Hpc; split_and!; by repeat constructor);
    destruct (run_step _ _ _ _ _ _) as [[[pc' u'] evs]|] eqn:Hr;
    try done; intros [= <-]; by apply Hclose.
Qed.

Lemma step_loop_enabled s i (inp : LoopInput) t pc' :
  tasks s !! i = Some t →
  next_pc (running (ac s)) (t_pc t) inp = Some pc' →
  ∃ wg (u' : U) evs,
    sys_step (StepLoop i inp) s = Some (set_task i t pc' wg u' evs s).
Proof.
  intros Hi Hn. unfold sys_step. rewrite Hi.
  destruct (t_pc t), inp; simpl in Hn; try done; injection Hn as <-;
    cbn beta iota; simpl; repeat case_match; simplify_eq; by do 3 eexists.
Qed.

(** X7. The loop goroutines do not interfere, and what a handler does
    (return nil, fail, panic, change its state) has no bearing on where any
    loop goes next: if two different loops can each take a step, then after
    the step of the one the other can still take its step, it arrives where
    it would have arrived, and the first is where its own step left it. *)
Theorem loops_do_not_interfere s s1 s2 i j (inp inp' : LoopInput) :
  i ≠ j →
  sys_step (StepLoop i inp) s = Some s1 →
  sys_step (StepLoop j inp') s = Some s2 →
  tasks s1 !! j = tasks s !! j
  ∧ ∃ s12,
      sys_step (StepLoop j inp') s1 = Some s12
      ∧ tasks s12 !! j = tasks s2 !! j
      ∧ tasks s12 !! i = tasks s1 !! i.
Proof.
  intros Hij (ti & pci & wgi & ui & evi & Hi & Hni & -> & _)%step_loop_shape
    (tj & pcj & wgj & uj & evj & Hj & Hnj & -> & _)%step_loop_shape.
  assert (Hj1 : tasks (set_task i ti pci wgi ui evi s) !! j = Some tj).
  { simpl. by rewrite list_lookup_insert_ne. }
  split; [by rewrite Hj1|].
  destruct (step_loop_enabled (set_task i ti pci wgi ui evi s) j inp' tj pcj)
    as (wg & u' & evs & Hstep); [done|done|].
  eexists. split; [exact Hstep|]. simpl. split.
  - rewrite !list_lookup_insert_eq; [done|..].
    + by eapply lookup_lt_Some.
    + rewrite length_insert. by eapply lookup_lt_Some.
  - by rewrite list_lookup_insert_ne.
Qed.

Lemma sd_event_not_loop (e : Event) j :
  sd_of e = Some j → is_loop_event e = false.
Proof. by destruct e. Qed.

(** With every loop goroutine exited, a step other than a call of [Start]
    leaves them so and adds no event of a loop. *)
Lemma quiet_step a s s' :
  (∀ t, t ∈ tasks s → t_pc t = Exited) → is_CallStart a = false →
  sys_step a s = Some s' →
  (∀ t, t ∈ tasks s' → t_pc t = Exited)
  ∧ ∃ evs, trace s' = trace s ++ evs
           ∧ Forall (λ e, is_loop_event e = false) evs.
Proof.
  intros Hall Ha Hs.
  destruct a as [queue consumer fn|order| |i inp|j order]; try done.
  - injection Hs as <-. split; [done|]. eexists. split; [done|].
    by repeat constructor.
  - injection Hs as <-. split; [done|]. eexists. split; [done|].
    by repeat constructor.
  - apply step_loop_shape in Hs
      as (t & pc' & wg & u' & evs & Hi & Hn & _).
    rewrite (Hall t) in Hn by by eapply list_elem_of_lookup_2.
    by destruct inp.
  - unfold sys_step in Hs.
    destruct (shutdowns s !! j) as [pc|]; [|done].
    destruct (shutdown_step _ _ _ _ _) as [[pc' evs]|] eqn:Hstep; [|done].
    injection Hs as <-. split; [done|]. exists evs. split; [done|].
    apply Forall_forall. intros e He.
    destruct (shutdown_step_events _ _ _ _ _ _ _ Hstep e He) as [Hsd _].
    by eapply sd_event_not_loop.
Qed.

Lemma quiet_exec acts s s' :
  (∀ t, t ∈ tasks s → t_pc t = Exited) →
  Forall (λ a, is_CallStart a = false) acts →
  exec acts s = Some s' →
  (∀ t, t ∈ tasks s' → t_pc t = Exited)
  ∧ ∃ evs, trace s' = trace s ++ evs
           ∧ Forall (λ e, is_loop_event e = false) evs.
Proof.
  revert s. induction acts as [|a acts IH]; intros s Hall Hacts; simpl.
  - intros [= <-]. split; [done|]. exists []. by rewrite app_nil_r.
  - destruct (sys_step a s) as [s1|] eqn:Hs; [|done]. intros Hex.
    apply Forall_cons in Hacts as [Ha Hacts].
    destruct (quiet_step _ _ _ Hall Ha Hs) as (Hall1 & evs1 & Htr1 & Hq1).
    destruct (IH s1 Hall1 Hacts Hex) as (Hall2 & evs2 & Htr2 & Hq2).
    split; [done|]. exists (evs1 ++ evs2).
    split; [by rewrite Htr2, Htr1, app_assoc|by apply Forall_app].
Qed.

(** X8. Shutdown drains: from the moment the [Wait] of a shutdown goroutine
    returns, and as long as [Start] is not called again, every loop
    goroutine stays exited and the trace gets no event of a loop: no
    [Consume], no handler diagnostic, no sleep, no [Ack], no [Reject]. *)
Theorem no_loop_activity_after_Wait
    (u : U) (acts0 acts : list (Action U)) s0 s1 s2 j (order : list string) :
  exec acts0 (initial u) = Some s0 →
  shutdowns s0 !! j = Some SdWait →
  sys_step (StepShutdown j order) s0 = Some s1 →
  Forall (λ a, is_CallStart a = false) acts →
  exec acts s1 = Some s2 →
  (∀ t, t ∈ tasks s2 → t_pc t = Exited)
  ∧ ∃ evs, trace s2 = trace s0 ++ EvWaitReturn j :: evs
           ∧ Forall (λ e, is_loop_event e = false) evs.
Proof.
  intros Hinv%Inv_reachable Hj Hs1 Hacts Hex.
  unfold sys_step in Hs1. rewrite Hj in Hs1. simpl in Hs1.
  case_bool_decide as Hz; [|done]. injection Hs1 as <-.
  assert (Hall : ∀ t, t ∈ tasks s0 → t_pc t = Exited).
  { intros t [i Hi]%list_elem_of_lookup_1.
    apply (live_zero (tasks s0) i); [|done].
    pose proof (inv_wg _ Hinv). lia. }
  pose proof (λ H, quiet_exec acts _ s2 H Hacts Hex) as Hquiet.
  destruct (Hquiet Hall) as (Hall2 & evs & Htr & Hq).
  split; [done|]. exists evs. simpl in Htr.
  by rewrite Htr, <-app_assoc.
Qed.

(** *** What the shutdown goroutine cancels *)

Lemma cancels_app j tr evs :
  cancels j (tr ++ evs) = cancels j tr ++ cancels j evs.
Proof. apply omap_app. Qed.

Lemma elem_of_cancels j tr (c : string) :
  c ∈ cancels j tr ↔ EvCancel j c ∈ tr.
Proof.
  unfold cancels. rewrite list_elem_of_omap. split.
  - intros (e & He & Hc). destruct e; try done.
    case_decide; [|done]. by simplify_eq.
  - intros He. exists (EvCancel j c). split; [done|]. by case_decide.
Qed.

Lemma cancels_foreign j evs :
  (∀ e, e ∈ evs → sd_of e ≠ Some j) → cancels j evs = [].
Proof.
  intros Hf. induction evs as [|e evs IH]; [done|].
  assert (He : sd_of e ≠ Some j) by (apply Hf; by left).
  change (e :: evs) with ([e] ++ evs).
  rewrite cancels_app, IH, app_nil_r by (intros ??; apply Hf; by right).
  unfold cancels. destruct e; try done. simpl. case_decide; [|done].
  by subst.
Qed.

Lemma foldl_launch_cancels (order : list string) s j :
  cancels j (trace (foldl launch s order)) = cancels j (trace s).
Proof.
  revert s. induction order as [|k order IH]; intros s; [done|].
  simpl. rewrite IH. unfold launch.
  destruct (entries (ac s) !! k); [|done].
  simpl. by rewrite cancels_app, app_nil_r.
Qed.

Lemma sys_step_cancels a s s' j :
  sys_step a s = Some s' →
  cancels j (trace s')
  = cancels j (trace s)
    ++ match a with
       | StepShutdown j' _ => if decide (j' = j) then next_cancel s j else []
       | _ => []
       end.
Proof.
  destruct a as [queue consumer fn|order| |i inp|j' order].
  - intros [= <-]. simpl. by rewrite cancels_app.
  - simpl. case_bool_decide; [|done]. intros [= <-]. unfold Start.
    rewrite app_nil_r. destruct (running (ac s)); [done|].
    by rewrite foldl_launch_cancels.
  - intros [= <-]. simpl. by rewrite cancels_app.
  - intros (t & pc' & wg & u' & evs & _ & _ & -> & Hevs)%step_loop_shape.
    simpl. rewrite cancels_app. f_equal. apply cancels_foreign.
    intros e He. rewrite Forall_forall in Hevs. by rewrite (Hevs e He).
  - unfold sys_step, next_cancel.
    destruct (shutdowns s !! j') as [pc|] eqn:Hj'; [|done].
    destruct (shutdown_step _ _ _ _ _) as [[pc' evs]|] eqn:Hstep; [|done].
    intros [= <-]. simpl. rewrite cancels_app. f_equal.
    case_decide as Hjj.
    + subst j'. rewrite Hj'.
      destruct pc as [|[|c rest]| | | |]; simpl in Hstep;
        try case_bool_decide; simplify_eq; try done.
      unfold cancels. simpl. by case_decide.
    + apply cancels_foreign. intros e He.
      destruct (shutdown_step_events _ _ _ _ _ _ _ Hstep e He) as [-> _].
      congruence.
Qed.

Lemma sys_step_shutdowns a s s' j pc' :
  sys_step a s = Some s' → shutdowns s' !! j = Some pc' →
  (shutdowns s !! j = Some pc'
   ∧ match a with StepShutdown j' _ => j' ≠ j | _ => True end)
  ∨ (a = CallStop ∧ j = length (shutdowns s) ∧ pc' = SdRange)
  ∨ (∃ order pc, a = StepShutdown j order ∧ shutdowns s !! j = Some pc
       ∧ ∃ evs, shutdown_step j order (keys s) (jobWaiter (ac s)) pc
                = Some (pc', evs)).
Proof.
  destruct a as [queue consumer fn|order| |i inp|j' order].
  - intros [= <-]. simpl. auto.
  - simpl. case_bool_decide; [|done]. intros [= <-]. unfold Start.
    destruct (running (ac s)); [auto|].
    match goal with
    | |- context [foldl launch ?s0 order] =>
        destruct (foldl_launch_frame order s0) as (_ & -> & _)
    end.
    simpl. auto.
  - intros [= <-]. simpl. intros [Hj|[Hge Hj]]%lookup_app_Some; [auto|].
    right. left. destruct (j - length (shutdowns s))%nat eqn:Hd; [|done].
    injection Hj as <-. split_and!; [done|lia|done].
  - intros (t & pc0 & wg & u' & evs & _ & _ & -> & _)%step_loop_shape.
    simpl. auto.
  - unfold sys_step.
    destruct (shutdowns s !! j') as [pc|] eqn:Hj'; [|done].
    destruct (shutdown_step _ _ _ _ _) as [[pc1 evs]|] eqn:Hstep; [|done].
    intros [= <-]. simpl. destruct (decide (j' = j)) as [->|Hne].
    + rewrite list_lookup_insert_eq by by eapply lookup_lt_Some.
      intros [= <-]. right. right. eauto 10.
    + rewrite list_lookup_insert_ne by done. auto.
Qed.

Lemma CancelInv_step a s s' :
  Inv s → CancelInv s → sys_step a s = Some s' → CancelInv s'.
Proof.
  intros Hinv [Hnd Hreg Hpc] Hs.
  pose proof (sys_step_entries_mono a s s') as Hmono.
  assert (Hnext : ∀ j c, c ∈ next_cancel s j →
            (c ∉ cancels j (trace s)) ∧ is_Some (entries (ac s) !! c)
            ∧ ∃ rest, shutdowns s !! j = Some (SdCancel (c :: rest))).
  { intros j c. unfold next_cancel.
    destruct (shutdowns s !! j) as [[|[|c' rest]| | | |]|] eqn:Hj;
      try (by intros ?%elem_of_nil).
    intros ->%list_elem_of_singleton.
    destruct (Hpc _ _ Hj) as [Hn Hr]. split_and!.
    - apply NoDup_app in Hn as (_ & Hn & _). intros Hin.
      apply (Hn _ Hin). by left.
    - apply Hr. by left.
    - by eexists. }
  assert (Hcan : ∀ j,
            cancels j (trace s') = cancels j (trace s)
            ∨ ∃ c order, a = StepShutdown j order
                ∧ cancels j (trace s') = cancels j (trace s) ++ [c]
                ∧ c ∈ next_cancel s j).
  { intros j. rewrite (sys_step_cancels a s s' j Hs).
    destruct a as [| | | |j' order]; rewrite ?app_nil_r; auto.
    case_decide as Hjj; rewrite ?app_nil_r; auto. subst j'.
    unfold next_cancel.
    destruct (shutdowns s !! j) as [[|[|c rest]| | | |]|];
      rewrite ?app_nil_r; auto.
    right. exists c, order. split_and!; [done|done|by left]. }
  split.
  - intros j. destruct (Hcan j) as [->|(c & order & _ & -> & Hc)]; [done|].
    apply NoDup_app. split_and!; [done| |apply NoDup_singleton].
    intros x Hx ->%list_elem_of_singleton. by destruct (Hnext j c Hc).
  - intros j c Hc. apply Hmono; [done|].
    destruct (Hcan j) as [Heq|(c' & order & _ & Heq & Hc')];
      rewrite Heq in Hc; [by eapply Hreg|].
    apply elem_of_app in Hc as [Hc| ->%list_elem_of_singleton];
      [by eapply Hreg|].
    by destruct (Hnext j c' Hc') as (_ & ? & _).
  - intros j pc' Hj.
    destruct (sys_step_shutdowns a s s' j pc' Hs Hj)
      as [[Hold Hother]|[(-> & -> & ->)|(order & pc & -> & Hold & evs & Hst)]].
    + pose proof (Hpc _ _ Hold) as Hok.
      assert (Hsame : cancels j (trace s') = cancels j (trace s)).
      { destruct (Hcan j) as [?|(c & order & -> & _)]; [done|].
        by destruct Hother. }
      destruct pc'; simpl in *; rewrite ?Hsame; try done.
      destruct Hok as [? Hr]. split; [done|]. intros c Hc.
      by apply Hmono, Hr.
    + injection Hs as <-. simpl. rewrite cancels_app, app_nil_r.
      destruct (cancels (length (shutdowns s)) (trace s)) as [|c l] eqn:Hc;
        [done|].
      assert (Hin : c ∈ cancels (length (shutdowns s)) (trace s))
        by (rewrite Hc; by left).
      apply elem_of_cancels in Hin.
      apply (inv_handles _ Hinv _ (length (shutdowns s))) in Hin; [lia|done].
    + pose proof (Hpc _ _ Hold) as Hok.
      pose proof (sys_step_cancels _ _ _ j Hs) as Hcs. simpl in Hcs.
      rewrite decide_True in Hcs by done. unfold next_cancel in Hcs.
      rewrite Hold in Hcs.
      destruct pc as [|[|c rest]| | | |]; simpl in Hst;
        try case_bool_decide; simplify_eq; simpl in *; try done.
      * rewrite app_nil_r in Hcs. rewrite Hcs, Hok. simpl. split.
        -- match goal with Hp : order ≡ₚ _ |- _ => rewrite Hp end.
           apply NoDup_fst_map_to_list.
        -- intros c Hc. apply Hmono; [done|]. apply elem_of_keys.
           match goal with Hp : order ≡ₚ _ |- _ => by rewrite <-Hp end.
      * destruct Hok as [Hn Hr]. rewrite Hcs. split.
        -- by rewrite <-app_assoc.
        -- intros c' Hc'. apply Hmono; [done|]. apply Hr. by right.
Qed.

Lemma CancelInv_exec acts s s' :
  Inv s → CancelInv s → exec acts s = Some s' → CancelInv s'.
Proof.
  revert s. induction acts as [|a acts IH]; intros s Hinv Hc; simpl.
  - by intros [= <-].
  - destruct (sys_step a s) as [s1|] eqn:Hs; [|done].
    apply IH; [by eapply Inv_step|by eapply CancelInv_step].
Qed.

(** X9. In every run, a shutdown goroutine cancels no identity twice and
    only identities that are in the registry; and once its [Wait] has
    returned, every identity registered by the time [Stop] was called is
    among those it cancelled. *)
Theorem Stop_cancels_each_identity_once (u : U) acts s j :
  exec acts (initial u) = Some s →
  NoDup (cancels j (trace s))
  ∧ (∀ c, c ∈ cancels j (trace s) ↔ EvCancel j c ∈ trace s)
  ∧ (∀ c, c ∈ cancels j (trace s) → is_Some (entries (ac s) !! c))
  ∧ (EvWaitReturn j ∈ trace s →
     ∀ c, before (trace s) (EvAddFunc c) (EvStop j) →
          c ∈ cancels j (trace s)).
Proof.
  intros Hex. pose proof (Inv_reachable _ _ _ Hex) as Hinv.
  assert (Hc : CancelInv s).
  { eapply CancelInv_exec; [apply Inv_initial| |exact Hex].
    split; simpl.
    - intros ?. constructor.
    - intros ? c Hc. by apply elem_of_nil in Hc.
    - done. }
  destruct Hc as [Hnd Hreg _]. split_and!; [done| |by apply Hreg|].
  - intros c. apply elem_of_cancels.
  - intros Hw c Hb. apply elem_of_cancels.
    assert (Hlt : (j < length (shutdowns s))%nat)
      by by apply (inv_handles _ Hinv _ j) in Hw.
    apply lookup_lt_is_Some in Hlt as [pc Hpc].
    pose proof (inv_sd _ Hinv j pc Hpc) as Hok.
    destruct pc; simpl in Hok.
    + by destruct Hok as (? & ? & ?).
    + by destruct Hok as (? & ? & ? & ?).
    + by destruct Hok as (? & ? & ? & ?).
    + destruct Hok as (_ & [Hcan _] & _). by eapply before_elem_l, Hcan.
    + destruct Hok as ([Hcan _] & _). by eapply before_elem_l, Hcan.
    + destruct Hok as ([Hcan _] & _). by eapply before_elem_l, Hcan.
Qed.

End Runs.

(** ** The loop never re-attaches without backing off *)

Section Spacing.
Context {U : Type}.
Implicit Types (e : entry U) (u : U) (pc : LoopPc).

Lemma spaced_plain (b : bool) (t1 t2 : list Event) :
  Forall (λ ev, (∀ q c, ev ≠ EvConsume q c) ∧ (∀ d, ev ≠ EvSleep d)) t1 →
  spaced b (t1 ++ t2) = spaced b t2.
Proof.
  induction 1 as [|ev t1 [Hc Hs] _ IH]; [done|].
  simpl. destruct ev; try done; [by destruct (Hc queue consumer)|].
  by destruct (Hs d).
Qed.

Lemma deliver_plain (handler : HandlerFunc U) dely u :
  Forall (λ ev, (∀ q c, ev ≠ EvConsume q c) ∧ (∀ d, ev ≠ EvSleep d))
    (deliver handler dely u).2.
Proof.
  unfold deliver, runWithRecovery.
  destruct (handler (Body dely) u) as [u' [[err|]|r stack]]; simpl;
    by repeat constructor.
Qed.

Lemma spaced_mono (tr : list Event) :
  spaced false tr = true → spaced true tr = true.
Proof.
  induction tr as [|ev tr IH]; [done|]. simpl. destruct ev; try done; auto.
Qed.

Lemma run_steps_spaced csr e (script : list (bool * LoopInput)) pc u :
  spaced (armed_at pc) (run_steps csr e script pc u).2 = true.
Proof.
  revert pc u. induction script as [|[r inp] script IH]; intros pc u; [done|].
  simpl. destruct (run_step r csr e pc inp u) as [[[pc1 u1] t1]|] eqn:Hr;
    [|apply IH].
  specialize (IH pc1 u1).
  destruct (run_steps csr e script pc1 u1) as [[pc2 u2] t2]. simpl in *.
  destruct pc, inp; simpl in Hr; try done.
  - destruct r; simplify_eq; simpl in *; [done|by apply spaced_mono].
  - by simplify_eq.
  - by simplify_eq.
  - pose proof (deliver_plain (Handler e) dely u) as Hp.
    destruct (deliver (Handler e) dely u) as [u' t']. simplify_eq.
    by rewrite spaced_plain.
  - by simplify_eq.
  - destruct r; by simplify_eq.
Qed.

Lemma spaced_between (b : bool) (t1 t2 t3 : list Event)
    (q c q' c' : string) :
  spaced b (t1 ++ EvConsume q c :: t2 ++ EvConsume q' c' :: t3) = true →
  EvSleep 15000000000 ∈ t2.
Proof.
  revert b. induction t1 as [|ev t1 IH]; intros b; simpl.
  - intros [_ Hs]%andb_prop. clear b.
    induction t2 as [|ev t2 IH2]; [done|].
    destruct ev; simpl in Hs; try done; try (right; by apply IH2).
    apply andb_prop in Hs as [Hd _].
    apply bool_decide_eq_true in Hd as ->. by left.
  - destruct ev; try apply IH.
    + intros [_ Hs]%andb_prop. by eapply IH.
    + intros [_ Hs]%andb_prop. by eapply IH.
Qed.

(** X10. In every run of a per-binding loop, from whichever point, a sleep
    of 15 s lies between any two calls of [Consume]: the loop does not
    re-attach to its queue without backing off, whether the previous attempt
    failed or its stream ended. *)
Theorem run_sleeps_between_consumes
    csr e (script : list (bool * LoopInput)) pc u
    (t1 t2 t3 : list Event) (q c q' c' : string) :
  (run_steps csr e script pc u).2
  = t1 ++ EvConsume q c :: t2 ++ EvConsume q' c' :: t3 →
  EvSleep 15000000000 ∈ t2.
Proof.
  intros Heq. pose proof (run_steps_spaced csr e script pc u) as Hs.
  rewrite Heq in Hs. by eapply spaced_between.
Qed.

End Spacing.

(** ** The channel supervisor: operations, [Close], construction *)

Section Operations.
Context {T : Transport}.
Implicit Types (ad : Amqpx) (w : World) (t : list Op) (σ : World * list Op)
  (s : Sup).

(** The outcomes of [initChannel]: it fails with one of the two wrapped
    errors and keeps the receiver, or it succeeds with a channel; either way
    it makes only transport calls. *)
Ltac ops_ok :=
  repeat first [apply Forall_nil_2 | apply Forall_cons_2; [by auto|]].

Lemma initChannel_cases ad w t :
  ∃ w' ops,
    Forall is_transport_op ops
    ∧ ((∃ e, initChannel ad (w, t)
             = ((ad, Some ("amqpd connection error: " +:+ e)), (w', t ++ ops)))
       ∨ (∃ e, initChannel ad (w, t)
               = ((ad, Some ("open channel error: " +:+ e)), (w', t ++ ops)))
       ∨ (∃ ch, initChannel ad (w, t)
                = ((mkAmqpx (Some ch), None), (w', t ++ ops)))).
Proof.
  assert (Hi : is_transport_op OpInit) by by left.
  assert (Hc : ∀ ch, is_transport_op (OpChannelClose ch))
    by (intros ch; right; left; by eexists).
  assert (Ho : is_transport_op OpConnectionChannel) by by (right; right).
  unfold initChannel, mbind, IO_bind, mret, IO_ret, connection_dead,
    call_Init, channel_IsClosed, channel_Close, connection_Channel.
  destruct (Connection_nil w || Connection_IsClosed w).
  - destruct (Init w) as [[e|] w1]; simpl.
    { exists w1, [OpInit]. split; [ops_ok|]. left. by eexists. }
    destruct (channel ad) as [ch|]; simpl.
    + destruct (Channel_IsClosed ch w1); simpl.
      * destruct (Connection_Channel w1) as [[ch'|e] w3]; simpl;
          exists w3, [OpInit; OpConnectionChannel];
          (split; [ops_ok|]); rewrite <-?app_assoc; eauto.
      * destruct (Channel_Close ch w1) as [ec w2]; simpl.
        destruct (Connection_Channel w2) as [[ch'|e] w3]; simpl;
          exists w3, [OpInit; OpChannelClose ch; OpConnectionChannel];
          (split; [ops_ok|]); rewrite <-?app_assoc; eauto.
    + destruct (Connection_Channel w1) as [[ch'|e] w3]; simpl;
        exists w3, [OpInit; OpConnectionChannel];
        (split; [ops_ok|]); rewrite <-?app_assoc; eauto.
  - simpl. destruct (channel ad) as [ch|]; simpl.
    + destruct (Channel_IsClosed ch w); simpl.
      * destruct (Connection_Channel w) as [[ch'|e] w3]; simpl;
          exists w3, [OpConnectionChannel];
          (split; [ops_ok|]); eauto.
      * destruct (Channel_Close ch w) as [ec w2]; simpl.
        destruct (Connection_Channel w2) as [[ch'|e] w3]; simpl;
          exists w3, [OpChannelClose ch; OpConnectionChannel];
          (split; [ops_ok|]); rewrite <-?app_assoc; eauto.
    + destruct (Connection_Channel w) as [[ch'|e] w3]; simpl;
        exists w3, [OpConnectionChannel];
        (split; [ops_ok|]); eauto.
Qed.

Lemma initChannel_channel ad σ :
  is_Some (channel ad) → is_Some (channel (initChannel ad σ).1.1).
Proof.
  intros Hch. destruct σ as [w t].
  destruct (initChannel_cases ad w t)
    as (w' & ops & _ & [[e ->]|[[e ->]|[ch ->]]]); simpl; eauto.
Qed.

Lemma redial_step_channel (sel : Selected) (pc : RedialPc) ad σ :
  is_Some (channel ad) →
  is_Some (channel (redial_step sel (pc, ad) σ).1.2).
Proof.
  intros Hch. destruct σ as [w t].
  destruct pc, sel; try done; cbn [redial_step];
    unfold mbind, IO_bind, mret, IO_ret, printf, emit;
    match goal with
    | |- context [initChannel ad ?σ0] =>
        pose proof (initChannel_channel ad σ0 Hch) as Hi;
        destruct (initChannel ad σ0) as [[ad' [e|]] [w' t']]
    end; done.
Qed.

Lemma redial_run_channel (sels : list Selected) (pc : RedialPc) ad σ :
  is_Some (channel ad) →
  is_Some (channel (redial_run sels (pc, ad) σ).1.2).
Proof.
  revert pc ad σ. induction sels as [|sel sels IH]; intros pc ad σ Hch;
    [done|].
  cbn [redial_run]. unfold mbind, IO_bind.
  pose proof (redial_step_channel sel pc ad σ Hch) as Hs.
  destruct (redial_step sel (pc, ad) σ) as [[pc1 ad1] σ1]. by apply IH.
Qed.

Lemma New_channel w t ad σ :
  New (w, t) = ((Some ad, None), σ) → is_Some (channel ad).
Proof.
  unfold New, mbind, IO_bind, mret, IO_ret, emit.
  destruct (initChannel_cases (mkAmqpx None) w t)
    as (w' & ops & _ & [[e ->]|[[e ->]|[ch ->]]]); try done.
  intros [= <- _]. by eexists.
Qed.

(** X11. On a supervisor that [New] returned, and after whatever the re-dial
    goroutine has done since (failed and successful re-acquisitions, its
    return), the channel field is not nil: every operation is a call on the
    channel the field holds, none dereferences nil. [Consume] is issued
    without auto-ack, [Cancel] without no-wait, the declarations durable. *)
Theorem operations_have_a_channel w t ad σ
    (sels : list Selected) (pc : RedialPc) :
  New (w, t) = ((Some ad, None), σ) →
  let ad' := (redial_run sels (pc, ad) σ).1.2 in
  ∃ ch,
    channel ad' = Some ch
    ∧ (∀ consumer, Cancel ad' consumer = Some (ch, ChCancel consumer false))
    ∧ (∀ queue consumer,
         Consume ad' queue consumer
         = Some (ch, ChConsume queue consumer false false false false))
    ∧ (∀ exchange key body,
         Publish ad' exchange key body
         = Some (ch, ChPublish exchange key false false "text/plain" body))
    ∧ (∀ name, QueueDeclare ad' name
               = Some (ch, ChQueueDeclare name true false false false))
    ∧ (∀ name key exchange,
         QueueBind ad' name key exchange
         = Some (ch, ChQueueBind name key exchange false))
    ∧ (∀ name kind,
         ExchangeDeclare ad' name kind
         = Some (ch, ChExchangeDeclare name kind true false false false)).
Proof.
  intros Hnew%New_channel ad'.
  destruct (redial_run_channel sels pc ad σ Hnew) as [ch Hch].
  fold ad' in Hch. exists ch.
  unfold Cancel, Consume, Publish, QueueDeclare, QueueBind, ExchangeDeclare,
    on_channel. by rewrite Hch.
Qed.

(** X12. Without a close notification the re-dial goroutine does nothing:
    whatever else its [select] finds, it calls nothing, logs nothing, leaves
    the channel field alone, and is still in its outer wait, or has returned
    if the stop signal was among what it found. *)
Theorem redial_idle_without_close (sels : list Selected) ad σ :
  Forall (λ sel, ∀ closeErr, sel ≠ SelClosed closeErr) sels →
  redial_run sels (RdSelect, ad) σ
  = ((if existsb is_SelStop sels then RdReturned else RdSelect, ad), σ).
Proof.
  induction 1 as [|sel sels Hsel _ IH]; [done|].
  cbn [redial_run existsb]. unfold mbind, IO_bind.
  destruct sel as [|c|]; simpl.
  - apply redial_run_returned.
  - by destruct (Hsel c).
  - apply IH.
Qed.

(** *** [Close] *)

Lemma past_send_app (cs1 cs2 : list ClosePc) :
  past_send (cs1 ++ cs2) = (past_send cs1 + past_send cs2)%nat.
Proof. unfold past_send. by rewrite filter_app, length_app. Qed.

Lemma past_send_insert (cs : list ClosePc) (k : nat) (c c' : ClosePc) :
  cs !! k = Some c →
  (past_send (<[k := c']> cs) + (if decide (c = ClSend) then 0 else 1)
   = past_send cs + (if decide (c' = ClSend) then 0 else 1))%nat.
Proof.
  intros Hk.
  assert (Hlt : (k < length cs)%nat) by by eapply lookup_lt_Some.
  assert (Hone : ∀ x : ClosePc,
            past_send [x] = if decide (x = ClSend) then 0%nat else 1%nat).
  { intros x. unfold past_send. case_decide.
    - by rewrite filter_cons_False by (intros Hn; by apply Hn).
    - by rewrite filter_cons_True. }
  assert (Hl : past_send cs
               = (past_send (take k cs)
                  + (past_send [c] + past_send (drop (S k) cs)))%nat).
  { rewrite <-(take_drop_middle cs k c Hk) at 1.
    by rewrite cons_middle, !past_send_app. }
  rewrite insert_take_drop, cons_middle, !past_send_app, Hl, !Hone by done.
  lia.
Qed.

Lemma redial_step_not_returned (sel : Selected) (pc : RedialPc) ad σ :
  is_SelStop sel = false → pc ≠ RdReturned →
  (redial_step sel (pc, ad) σ).1.1 ≠ RdReturned.
Proof.
  intros Hsel Hpc. destruct σ as [w t].
  destruct pc, sel; try done; cbn [redial_step];
    unfold mbind, IO_bind, mret, IO_ret, printf, emit;
    match goal with
    | |- context [initChannel ad ?σ0] =>
        destruct (initChannel ad σ0) as [[ad' [e|]] [w' t']]
    end; done.
Qed.

Lemma redial_step_returned_eq (sel : Selected) ad σ :
  redial_step sel (RdReturned, ad) σ = ((RdReturned, ad), σ).
Proof. done. Qed.

Lemma SupInv_step (a : SupAction) s s' :
  SupInv s → sup_step a s = Some s' → SupInv s'.
Proof.
  intros [Honce Hch Hpanic]. destruct a as [|sel|k|k]; unfold sup_step.
  - intros [= <-]. split; simpl; [|done|].
    + rewrite past_send_app, Honce. unfold past_send.
      rewrite filter_cons_False by (intros Hn; by apply Hn). simpl. lia.
    + rewrite not_elem_of_app, not_elem_of_cons.
      split_and!; [done|done|apply not_elem_of_nil].
  - assert (Hstep : ∀ pc0, is_SelStop sel = false → sup_redial s = pc0 →
              (let '((pc, ad), σ) :=
                 redial_step sel (pc0, sup_ad s) (sup_io s) in
               Some (mkSup ad pc (sup_closers s) σ)) = Some s' →
              SupInv s').
    { intros pc0 Hsel Hpc0.
      pose proof (redial_step_channel sel pc0 (sup_ad s) (sup_io s) Hch) as H1.
      pose proof (redial_step_not_returned sel pc0 (sup_ad s) (sup_io s) Hsel)
        as H2.
      destruct (decide (pc0 = RdReturned)) as [->|Hne].
      - rewrite redial_step_returned_eq. intros [= <-].
        split; simpl; [|done..]. by rewrite Honce, Hpc0.
      - destruct (redial_step sel (pc0, sup_ad s) (sup_io s))
          as [[pc ad] σ]. simpl in H1, H2. intros [= <-].
        split; simpl; [|done..].
        rewrite Honce, Hpc0, !decide_False; [done|by apply H2|done]. }
    destruct sel as [|c|], (sup_redial s) eqn:Hr; cbn beta iota; try done;
      try (destruct (stop_pending s); [done|]); by apply Hstep.
  - destruct (sup_closers s !! k) as [[| | |]|] eqn:Hk; try done.
    assert (Hgo : sup_redial s ≠ RdReturned →
              (let '((pc, ad), σ) :=
                 redial_step SelStop (sup_redial s, sup_ad s) (sup_io s) in
               Some (mkSup ad pc (<[k := ClChannelClose]> (sup_closers s)) σ))
              = Some s' → SupInv s').
    { intros Hne. rewrite redial_step_stop. intros [= <-].
      split; simpl; [|done|].
      - pose proof (past_send_insert _ k _ ClChannelClose Hk) as Hp.
        rewrite decide_True in Hp by done.
        rewrite decide_False in Hp by done.
        rewrite decide_False in Honce by done. lia.
      - intros [k' Hk']%list_elem_of_lookup_1.
        apply list_lookup_insert_Some in Hk' as [(_ & ? & _)|[_ Hk']];
          [done|].
        apply Hpanic. by eapply list_elem_of_lookup_2. }
    destruct (sup_redial s) eqn:Hr; try done; by apply Hgo.
  - destruct (sup_closers s !! k) as [[| | |]|] eqn:Hk; try done.
    destruct Hch as [ch Hch]. rewrite Hch.
    unfold channel_Close. destruct (sup_io s) as [w t].
    destruct (Channel_Close ch w) as [ec w']. intros [= <-].
    split; simpl; [|by eexists|].
    + pose proof (past_send_insert _ k _ ClReturned Hk) as Hp.
      rewrite !decide_False in Hp by done. lia.
    + intros [k' Hk']%list_elem_of_lookup_1.
      apply list_lookup_insert_Some in Hk' as [(_ & ? & _)|[_ Hk']]; [done|].
      apply Hpanic. by eapply list_elem_of_lookup_2.
Qed.

Lemma SupInv_exec (acts : list SupAction) s s' :
  SupInv s → sup_exec acts s = Some s' → SupInv s'.
Proof.
  revert s. induction acts as [|a acts IH]; intros s Hinv; simpl.
  - by intros [= <-].
  - destruct (sup_step a s) as [s1|] eqn:Hs; [|done].
    apply IH. by eapply SupInv_step.
Qed.

(** X13. Of all the calls of [Close] on a supervisor that [New] returned, at
    most one gets past its send on the stop channel, and one has exactly
    when the re-dial goroutine has returned; a caller that hands the stop
    over finds a channel to close (the field is not nil). *)
Theorem Close_is_taken_once w t ad σ (acts : list SupAction) s :
  New (w, t) = ((Some ad, None), σ) →
  sup_exec acts (sup_new ad σ) = Some s →
  (past_send (sup_closers s) ≤ 1)%nat
  ∧ (past_send (sup_closers s) = 1%nat ↔ sup_redial s = RdReturned)
  ∧ is_Some (channel (sup_ad s))
  ∧ (ClPanicked ∉ sup_closers s).
Proof.
  intros Hnew%New_channel Hex.
  assert (Hinit : SupInv (sup_new ad σ)).
  { split; simpl; [done|done|apply not_elem_of_nil]. }
  destruct (SupInv_exec _ _ _ Hinit Hex) as [Honce Hch Hpanic].
  rewrite Honce. split_and!; try done; case_decide; try lia.
  - done.
  - split; [lia|done].
Qed.

(** After the hand-over nothing moves but the callers past it. *)
Lemma returned_step (a : SupAction) s s' :
  sup_redial s = RdReturned → sup_step a s = Some s' →
  sup_redial s' = RdReturned
  ∧ sup_ad s' = sup_ad s
  ∧ (∀ k, sup_closers s !! k = Some ClSend →
          sup_closers s' !! k = Some ClSend)
  ∧ ∃ ops, (sup_io s').2 = (sup_io s).2 ++ ops
           ∧ Forall (λ op, is_reacquire op = false) ops.
Proof.
  intros Hr. destruct a as [|sel|k|k]; simpl; rewrite ?Hr.
  - intros [= <-]. simpl. split_and!; try done.
    + intros k Hk. by apply lookup_app_l_Some.
    + exists []. by rewrite app_nil_r.
  - destruct sel; try done; intros [= <-]; simpl;
      (split_and!; try done; exists []; by rewrite app_nil_r).
  - by destruct (sup_closers s !! k) as [[| | |]|].
  - destruct (sup_closers s !! k) as [[| | |]|] eqn:Hk; try done.
    destruct (channel (sup_ad s)) as [ch|].
    + unfold channel_Close. destruct (sup_io s) as [w t].
      destruct (Channel_Close ch w) as [ec w']. intros [= <-]. simpl.
      split_and!; try done.
      * intros k' Hk'. rewrite list_lookup_insert_ne; [done|].
        intros ->. congruence.
      * eexists. split; [done|]. by repeat constructor.
    + intros [= <-]. simpl. split_and!; try done.
      * intros k' Hk'. rewrite list_lookup_insert_ne; [done|].
        intros ->. congruence.
      * exists []. by rewrite app_nil_r.
Qed.

(** X14. Once the re-dial goroutine has taken the stop signal, it stays
    returned whatever happens: the channel field is never replaced, no
    [Init] and no [Connection.Channel()] is called again, and every call of
    [Close] that is waiting in its send, or arrives later, waits for ever:
    the hand-over is never enabled for it. *)
Theorem Close_ends_redial (acts : list SupAction) s s' :
  sup_redial s = RdReturned →
  sup_exec acts s = Some s' →
  sup_redial s' = RdReturned
  ∧ sup_ad s' = sup_ad s
  ∧ (∀ k, sup_closers s !! k = Some ClSend →
          sup_closers s' !! k = Some ClSend)
  ∧ (∀ k, sup_step (SupHandoff k) s' = None)
  ∧ ∃ ops, (sup_io s').2 = (sup_io s).2 ++ ops
           ∧ Forall (λ op, is_reacquire op = false) ops.
Proof.
  revert s. induction acts as [|a acts IH]; intros s Hr; simpl.
  - intros [= <-]. split_and!; try done.
    + intros k. rewrite Hr. by destruct (sup_closers s !! k) as [[| | |]|].
    + exists []. by rewrite app_nil_r.
  - destruct (sup_step a s) as [s1|] eqn:Hs; [|done]. intros Hex.
    destruct (returned_step a s s1 Hr Hs) as (Hr1 & Had1 & Hk1 & ops1 & Ht1 & Hq1).
    destruct (IH s1 Hr1 Hex) as (Hr2 & Had2 & Hk2 & Hno & ops2 & Ht2 & Hq2).
    split_and!; [done|congruence|auto|done|].
    exists (ops1 ++ ops2). split; [by rewrite Ht2, Ht1, app_assoc|].
    by apply Forall_app.
Qed.

End Operations.

Section Constructor.
Context {T : Transport} {U : Type}.


End Constructor.

(* ===================================================================== *)
(** * Part VI. The further properties at sample inputs *)
(* ===================================================================== *)

Lemma bindings_are_kept_witness :
  exec run_to_started (initial tt) = Some started
  ∧ exec (CallAddFunc "events" "w2" always_ok :: run_late_stop) started
    = Some late_stopped
  ∧ Z.of_nat (registrations
                (run_to_started
                 ++ CallAddFunc "events" "w2" always_ok :: run_late_stop))
    < 2 ^ 64
  ∧ consumerSeq late_stopped = 2
  ∧ entries (ac late_stopped) !! "w1-1" = Some (mkEntry "orders" always_ok).
Proof.
  assert (Hs : exec run_to_started (initial tt) = Some started)
    by (vm_compute; reflexivity).
  assert (Hl : exec (CallAddFunc "events" "w2" always_ok :: run_late_stop)
                 started = Some late_stopped) by (vm_compute; reflexivity).
  assert (Hb : Z.of_nat (registrations
                 (run_to_started
                  ++ CallAddFunc "events" "w2" always_ok :: run_late_stop))
               < 2 ^ 64) by (vm_compute; reflexivity).
  split; [exact Hs|]. split; [exact Hl|]. split; [exact Hb|].
  destruct (bindings_are_kept tt run_to_started _ started late_stopped
              Hs Hl Hb) as [Hseq Hkeep].
  split; [exact Hseq|]. apply Hkeep. by vm_compute.
Defined.

Lemma Start_again_witness :
  ["w1-1"] ≡ₚ keys started
  ∧ live (tasks (Start ["w1-1"] (Stop started).1))
    = (live (tasks started) + size (entries (ac started)))%nat.
Proof.
  assert (Hperm : ["w1-1"] ≡ₚ keys started)
    by (apply toy_perm; vm_compute; reflexivity).
  split; [exact Hperm|].
  destruct (Start_again ["w1-1"] [] started) as [_ Hre].
  destruct (Hre Hperm) as (new & _ & _ & _ & Hlive). exact Hlive.
Defined.

Lemma jobWaiter_counts_running_loops_witness :
  exec run_to_started (initial tt) = Some started
  ∧ jobWaiter (ac started) = Z.of_nat (live (tasks started))
  ∧ 0 ≤ jobWaiter (ac started).
Proof.
  assert (Hs : exec run_to_started (initial tt) = Some started)
    by (vm_compute; reflexivity).
  split; [exact Hs|].
  destruct (jobWaiter_counts_running_loops tt run_to_started started Hs)
    as (Hwg & Hpos & _).
  by split.
Defined.

Lemma Stop_launches_every_time_witness :
  exec run_to_shutdown (initial tt) = Some stopped
  ∧ length (shutdowns stopped)
    = length (filter (λ a, is_CallStop a = true) run_to_shutdown)
  ∧ (Stop stopped).2
    = length (filter (λ a, is_CallStop a = true) run_to_shutdown).
Proof.
  assert (Hs : exec run_to_shutdown (initial tt) = Some stopped)
    by (vm_compute; reflexivity).
  split; [exact Hs|].
  destruct (Stop_launches_every_time tt run_to_shutdown stopped Hs)
    as (Hlen & Hhandle & _).
  by split.
Defined.

Lemma loops_do_not_interfere_witness :
  0%nat ≠ 1%nat
  ∧ sys_step (StepLoop 0 Tick) two_started = Some two_started_first
  ∧ sys_step (StepLoop 1 Tick) two_started = Some two_started_second
  ∧ tasks two_started_first !! 1%nat = tasks two_started !! 1%nat
  ∧ ∃ s12,
      sys_step (StepLoop 1 Tick) two_started_first = Some s12
      ∧ tasks s12 !! 1%nat = tasks two_started_second !! 1%nat
      ∧ tasks s12 !! 0%nat = tasks two_started_first !! 0%nat.
Proof.
  assert (H1 : sys_step (StepLoop 0 Tick) two_started
               = Some two_started_first) by (vm_compute; reflexivity).
  assert (H2 : sys_step (StepLoop 1 Tick) two_started
               = Some two_started_second) by (vm_compute; reflexivity).
  split; [discriminate|]. split; [exact H1|]. split; [exact H2|].
  exact (loops_do_not_interfere two_started two_started_first
           two_started_second 0 1 Tick Tick ltac:(discriminate) H1 H2).
Defined.

Lemma no_loop_activity_after_Wait_witness :
  exec run_to_drained (initial tt) = Some drained
  ∧ shutdowns drained !! 0%nat = Some SdWait
  ∧ sys_step (StepShutdown 0 []) drained = Some wait_returned
  ∧ Forall (λ a : Action unit, is_CallStart a = false) run_after_wait
  ∧ exec run_after_wait wait_returned = Some after_wait
  ∧ ∀ t, t ∈ tasks after_wait → t_pc t = Exited.
Proof.
  assert (Hd : exec run_to_drained (initial tt) = Some drained)
    by (vm_compute; reflexivity).
  assert (Hw : shutdowns drained !! 0%nat = Some SdWait)
    by (vm_compute; reflexivity).
  assert (Hr : sys_step (StepShutdown 0 []) drained = Some wait_returned)
    by (vm_compute; reflexivity).
  assert (Hacts : Forall (λ a : Action unit, is_CallStart a = false)
                    run_after_wait) by (repeat constructor).
  assert (Ha : exec run_after_wait wait_returned = Some after_wait)
    by (vm_compute; reflexivity).
  split; [exact Hd|]. split; [exact Hw|]. split; [exact Hr|].
  split; [exact Hacts|]. split; [exact Ha|].
  destruct (no_loop_activity_after_Wait tt run_to_drained run_after_wait
              drained wait_returned after_wait 0 [] Hd Hw Hr Hacts Ha)
    as [Hall _].
  exact Hall.
Defined.

Lemma Stop_cancels_each_identity_once_witness :
  exec run_late_from_start (initial tt) = Some late_stopped
  ∧ EvWaitReturn 0 ∈ trace late_stopped
  ∧ NoDup (cancels 0 (trace late_stopped))
  ∧ (before (trace late_stopped) (EvAddFunc "w2-2") (EvStop 0) →
     "w2-2" ∈ cancels 0 (trace late_stopped)).
Proof.
  assert (Hs : exec run_late_from_start (initial tt) = Some late_stopped)
    by (vm_compute; reflexivity).
  assert (Hw : EvWaitReturn 0 ∈ trace late_stopped)
    by (apply elem_of_trace; vm_compute; reflexivity).
  split; [exact Hs|]. split; [exact Hw|].
  destruct (Stop_cancels_each_identity_once tt run_late_from_start
              late_stopped 0 Hs) as (Hnd & _ & _ & Hall).
  split; [exact Hnd|]. exact (Hall Hw "w2-2").
Defined.

Lemma run_sleeps_between_consumes_witness :
  (run_steps "w1-1" (mkEntry "orders" always_ok) failing_then_stream
     AtFor tt).2
  = [] ++ EvConsume "orders" "w1-1"
       :: [EvLog ("amqpd-consumer: run error: amqpd consume err: "
                  +:+ "channel/connection is not open" +:+ newline);
           EvSleep 15000000000]
       ++ EvConsume "orders" "w1-1" :: []
  ∧ EvSleep 15000000000
    ∈ [EvLog ("amqpd-consumer: run error: amqpd consume err: "
              +:+ "channel/connection is not open" +:+ newline);
       EvSleep 15000000000].
Proof.
  assert (Heq : (run_steps "w1-1" (mkEntry "orders" always_ok)
                   failing_then_stream AtFor tt).2
                = [] ++ EvConsume "orders" "w1-1"
                     :: [EvLog ("amqpd-consumer: run error: amqpd consume err: "
                                +:+ "channel/connection is not open"
                                +:+ newline);
                         EvSleep 15000000000]
                     ++ EvConsume "orders" "w1-1" :: [])
    by (vm_compute; reflexivity).
  split; [exact Heq|].
  exact (run_sleeps_between_consumes _ _ _ _ _ _ _ _ _ _ _ _ Heq).
Defined.

Lemma operations_have_a_channel_witness :
  New (T := ToyTransport) (toy_fresh, []) = ((Some toy_first, None), toy_after_New)
  ∧ ∃ ch,
      channel (redial_run [SelClosed "connection reset"; SelNone; SelStop]
                 (RdSelect, toy_first) toy_after_New).1.2 = Some ch
      ∧ ∀ consumer,
          Cancel (redial_run [SelClosed "connection reset"; SelNone; SelStop]
                    (RdSelect, toy_first) toy_after_New).1.2 consumer
          = Some (ch, ChCancel consumer false).
Proof.
  assert (Hnew : New (T := ToyTransport) (toy_fresh, []) = ((Some toy_first, None), toy_after_New))
    by (vm_compute; reflexivity).
  split; [exact Hnew|].
  destruct (operations_have_a_channel (T := ToyTransport) toy_fresh [] toy_first toy_after_New
              [SelClosed "connection reset"; SelNone; SelStop] RdSelect Hnew)
    as (ch & Hch & Hcancel & _).
  exists ch. by split.
Defined.

Lemma redial_idle_without_close_witness :
  Forall (λ sel, ∀ closeErr, sel ≠ SelClosed closeErr)
    [SelNone; SelStop; SelNone]
  ∧ redial_run [SelNone; SelStop; SelNone] (RdSelect, toy_ad) (toy_busy, [])
    = ((RdReturned, toy_ad), (toy_busy, [])).
Proof.
  assert (Hsels : Forall (λ sel, ∀ closeErr, sel ≠ SelClosed closeErr)
                    [SelNone; SelStop; SelNone])
    by (repeat constructor; discriminate).
  split; [exact Hsels|].
  exact (redial_idle_without_close [SelNone; SelStop; SelNone] toy_ad
           (toy_busy, []) Hsels).
Defined.

Lemma Close_is_taken_once_witness :
  New (T := ToyTransport) (toy_fresh, []) = ((Some toy_first, None), toy_after_New)
  ∧ sup_exec run_two_closes (sup_new toy_first toy_after_New)
    = Some two_closes
  ∧ sup_closers two_closes = [ClSend; ClReturned]
  ∧ (past_send (sup_closers two_closes) ≤ 1)%nat
  ∧ (ClPanicked ∉ sup_closers two_closes).
Proof.
  assert (Hnew : New (T := ToyTransport) (toy_fresh, []) = ((Some toy_first, None), toy_after_New))
    by (vm_compute; reflexivity).
  assert (Hex : sup_exec run_two_closes (sup_new toy_first toy_after_New)
                = Some two_closes) by (vm_compute; reflexivity).
  split; [exact Hnew|]. split; [exact Hex|]. split; [by vm_compute|].
  destruct (Close_is_taken_once (T := ToyTransport) toy_fresh [] toy_first toy_after_New
              run_two_closes two_closes Hnew Hex) as (Hle & _ & _ & Hpanic).
  by split.
Defined.

Lemma Close_ends_redial_witness :
  sup_redial two_closes = RdReturned
  ∧ sup_exec run_after_close two_closes = Some after_close
  ∧ sup_redial after_close = RdReturned
  ∧ sup_ad after_close = sup_ad two_closes
  ∧ sup_step (SupHandoff 2) after_close = None.
Proof.
  assert (Hr : sup_redial two_closes = RdReturned)
    by (vm_compute; reflexivity).
  assert (Hex : sup_exec run_after_close two_closes = Some after_close)
    by (vm_compute; reflexivity).
  split; [exact Hr|]. split; [exact Hex|].
  destruct (Close_ends_redial run_after_close two_closes after_close Hr Hex)
    as (Hr' & Had & _ & Hno & _).
  split; [exact Hr'|]. split; [exact Had|]. exact (Hno 2%nat).
Defined.
